(** * rjg: the template-resolution engine of [cmd/root.go]

    A shallow embedding of [Generator.Generate], [Generator.resolveVar],
    [convertToInt], [joinAnySlice] and [isPredefinedVar], and the properties
    of the specification that concern them.

    Modelling choices, all read off the Go source:
    - a Go [interface{}] value is the tagged union [value]; a JSON object
      ([map[string]interface{}]) is a [gmap string value], so keys are unique
      and two objects with the same entries are equal;
    - a [float64] that comes out of [json.Unmarshal] is finite, and the
      program never does floating-point arithmetic on it (it only converts
      with [int(v)]), so it is represented by the rational it denotes;
    - Go's [int] is the 64-bit two's-complement integer, with wrap-around
      written out ([wrap_int]);
    - the two sources of nondeterminism, [math/rand/v2] and the order in which
      [range] visits a map, are answered by an explicit [world] threaded
      through the computation;
    - a call can return a value, return an error, panic, or (for cyclic user
      variables) never return: [outcome]; recursion is bounded by fuel. *)

From Stdlib Require Import ZArith QArith String Ascii List Lia.
From stdpp Require Import gmap strings list fin_maps.

#[local] Open Scope string_scope.
#[local] Open Scope Z_scope.
#[local] Set Warnings "-register-all".

(** ** Values *)

(** The dynamic types an [interface{}] can hold in this program: what
    [json.Unmarshal] produces ([nil], [bool], [float64], [string],
    [[]interface{}], [map[string]interface{}]) and what the directives
    return ([int], [uint8], ..., [int64]). *)
Inductive value : Type :=
  | VNil
  | VBool (b : bool)
  | VFloat64 (v : Q)
  | VString (s : string)
  | VArr (l : list value)
  | VMap (m : gmap string value)
  | VInt (n : Z)
  | VUint8 (n : Z)
  | VUint16 (n : Z)
  | VUint32 (n : Z)
  | VInt8 (n : Z)
  | VInt16 (n : Z)
  | VInt32 (n : Z)
  | VInt64 (n : Z).

(** Nesting depth of objects (arrays are never entered by [Generate]). *)
Fixpoint depth (v : value) : nat :=
  match v with
  | VMap m => S (map_fold (fun _ x acc => Nat.max (depth x) acc) 0%nat m)
  | _ => 0%nat
  end.

(** ** Errors and panics *)

(** One constructor per [errors.New] / [fmt.Errorf] site; [%w] wrapping
    keeps the wrapped error.  Two sites share the format string
    "failed to resolve variable %q: %w", hence one constructor. *)
Inductive error : Type :=
  | ErrResolveGenerator (key : string) (e : error)
      (* failed to resolve generator %q: %w *)
  | ErrResolveKey (key : string) (e : error)
      (* failed to resolve key %q: %w *)
  | ErrResolveVal (val : value) (e : error)
      (* failed to resolve val %q: %w *)
  | ErrKeysMustBeStrings
      (* keys must resolve to strings *)
  | ErrResolveVariable (variable : string) (e : error)
      (* failed to resolve variable %q: %w *)
  | ErrIntInvalidMinMax
      (* invalid min or max value for $int *)
  | ErrIntRequires
      (* $int requires a {min, max} object *)
  | ErrArrLen (e : error)
      (* failed to resolve length for $arr: %w *)
  | ErrArrInvalidLen
      (* invalid len value for $arr *)
  | ErrArrMissingVal
      (* missing val for $arr *)
  | ErrArrRequires
      (* $arr requires a {len, val} object *)
  | ErrObjMustContain
      (* $obj must contain a list of objects *)
  | ErrObjRequires
      (* $obj requires objects *)
  | ErrOneofRequires
      (* $oneof requires a list of values *)
  | ErrOptionRequires
      (* $option requires a valid parameter *)
  | ErrUndefinedVariable (variable : string)
      (* undefined variable: %q *)
  | ErrExpectedSlice (result : value).
      (* expected slice but got %T *)

(** Run-time panics the code can raise. *)
Inductive panic : Type :=
  | PanicIntN          (* rand.IntN: invalid argument to IntN *)
  | PanicUintN         (* rand.UintN: invalid argument to UintN *)
  | PanicMakeslice     (* makeslice: len out of range *)
  | PanicIndex.        (* index out of range *)

(** ** The world: randomness and map iteration order *)

(** [rand_draws] answers the calls to [math/rand/v2] in order, [range_orders]
    chooses the order of each [range] over a map.  An exhausted list answers
    0 from then on. *)
Record world : Type := mkWorld {
  rand_draws : list Z;
  range_orders : list nat
}.

Definition draw (w : world) : Z * world :=
  match rand_draws w with
  | [] => (0, w)
  | d :: ds => (d, mkWorld ds (range_orders w))
  end.

Definition next_order (w : world) : nat * world :=
  match range_orders w with
  | [] => (0%nat, w)
  | k :: ks => (k, mkWorld (rand_draws w) ks)
  end.

(** Insert [x] at position [n] of [l] (at the end when [n] is too large). *)
Fixpoint insert_at {A : Type} (n : nat) (x : A) (l : list A) : list A :=
  match n, l with
  | O, _ => x :: l
  | S n', [] => [x]
  | S n', y :: l' => y :: insert_at n' x l'
  end.

(** The permutation of [l] numbered [k] (factorial number system): Go leaves
    the iteration order of a map unspecified, so every order is possible. *)
Fixpoint shuffle {A : Type} (k : nat) (l : list A) : list A :=
  match l with
  | [] => []
  | x :: t =>
      insert_at (k mod S (length t)) x (shuffle (k / S (length t)) t)
  end.

(** The entries of a map in the order a [range] statement visits them. *)
Definition range_entries (k : nat) (m : gmap string value) : list (string * value) :=
  shuffle k (map_to_list m).

(** ** Outcomes and the monad of the engine *)

Inductive outcome (A : Type) : Type :=
  | Ok (a : A) (w : world)     (* return a, nil *)
  | Err (e : error)            (* return nil, err *)
  | Panic (p : panic)          (* run-time panic *)
  | Timeout.                   (* the fuel ran out *)

Arguments Ok {A} a w.
Arguments Err {A} e.
Arguments Panic {A} p.
Arguments Timeout {A}.

Definition M (A : Type) : Type := world -> outcome A.

Definition ret {A : Type} (a : A) : M A := fun w => Ok a w.

Definition throw {A : Type} (e : error) : M A := fun _ => Err e.

Definition raise_panic {A : Type} (p : panic) : M A := fun _ => Panic p.

Definition bind {A B : Type} (c : M A) (k : A -> M B) : M B :=
  fun w =>
    match c w with
    | Ok a w' => k a w'
    | Err e => Err e
    | Panic p => Panic p
    | Timeout => Timeout
    end.

Notation "'let*' x ':=' c 'in' k" := (bind c (fun x => k))
  (at level 10, x name, c at level 100, k at level 200).

(** [fmt.Errorf("...: %w", err)] on the error path of a call. *)
Definition map_err {A : Type} (f : error -> error) (o : outcome A) : outcome A :=
  match o with
  | Err e => Err (f e)
  | _ => o
  end.

Definition wrap_err {A : Type} (f : error -> error) (c : M A) : M A :=
  fun w => map_err f (c w).

(** ** Strings *)

(** [strings.HasPrefix(s, prefix)]. *)
Definition HasPrefix (s prefix : string) : bool := String.prefix prefix s.

(** [strings.TrimPrefix(s, prefix)]. *)
Definition TrimPrefix (s prefix : string) : string :=
  if HasPrefix s prefix
  then String.substring (String.length prefix)
         (String.length s - String.length prefix) s
  else s.

(** ** Go's int and the conversions *)

Definition int_min : Z := - 2 ^ 63.
Definition int_max : Z := 2 ^ 63 - 1.

(** Two's-complement wrap-around of a 64-bit [int]. *)
Definition wrap_int (z : Z) : Z := (z + 2 ^ 63) mod 2 ^ 64 - 2 ^ 63.

Definition int_add (a b : Z) : Z := wrap_int (a + b).
Definition int_sub (a b : Z) : Z := wrap_int (a - b).

(** Truncation toward zero of the rational a float64 denotes. *)
Definition Qtrunc (v : Q) : Z := Z.quot (Qnum v) (Zpos (Qden v)).

(** [int(v)] for a [float64] [v]: the fraction is discarded.  When the
    truncated value does not fit, Go leaves the result to the implementation;
    amd64 yields the smallest int, which is what is modelled.  The
    properties below are stated on the converted bounds, with explicit range
    hypotheses where the range matters. *)
Definition float64_to_int (v : Q) : Z :=
  let t := Qtrunc v in
  if (int_min <=? t) && (t <=? int_max) then t else int_min.

(** [convertToInt]. *)
Definition convertToInt (value : value) : Z * bool :=
  match value with
  | VFloat64 v => (float64_to_int v, true)
  | VInt v => (v, true)
  | _ => (0, false)
  end.

(** ** math/rand/v2 *)

(** [rand.IntN(n)]: panics when [n <= 0], else a value of [[0, n)]. *)
Definition rand_IntN (n : Z) : M Z :=
  fun w =>
    if n <=? 0 then Panic PanicIntN
    else let (d, w') := draw w in Ok (d mod n) w'.

(** [rand.UintN(n)]: panics when [n = 0], else a value of [[0, n)]. *)
Definition rand_UintN (n : Z) : M Z :=
  fun w =>
    if n =? 0 then Panic PanicUintN
    else let (d, w') := draw w in Ok (d mod n) w'.

(** [rand.Uint32()]: a 32-bit value. *)
Definition rand_Uint32 : M Z :=
  fun w => let (d, w') := draw w in Ok (d mod 2 ^ 32) w'.

(** [rand.Int32()]: a non-negative 31-bit value. *)
Definition rand_Int32 : M Z :=
  fun w => let (d, w') := draw w in Ok (d mod 2 ^ 31) w'.

(** [rand.Int64()]: a non-negative 63-bit value. *)
Definition rand_Int64 : M Z :=
  fun w => let (d, w') := draw w in Ok (d mod 2 ^ 63) w'.

(** ** The directive registry *)

(** The package-level table [prefixed]. *)
Definition prefixed : gmap string bool :=
  list_to_map
    [ ("int", true); ("str", true); ("arr", true); ("obj", true);
      ("oneof", true); ("option", true); ("i", true); ("u8", true);
      ("u16", true); ("u32", true); ("i8", true); ("i16", true);
      ("i32", true); ("i64", true); ("digit", true); ("bool", true);
      ("alpha", true) ].

(** [isPredefinedVar]: a missing key reads as [false]. *)
Definition isPredefinedVar (value : string) : bool :=
  default false (prefixed !! value).

(** ** The generator *)

(** [Generator].  The field [predefinedVars] is always [nil] and never read;
    it is left out. *)
Record Generator : Type := mkGenerator {
  prefix : string;
  vars : gmap string value
}.

(** [m[key]] on a Go map: the zero value [nil] when the key is absent. *)
Definition index_or_nil (m : gmap string value) (key : string) : value :=
  default VNil (m !! key).

(** [string(rune(c + r))] for an ASCII letter. *)
Definition letter (c : Z) (r : Z) : string :=
  String (ascii_of_N (Z.to_N (c + r))) EmptyString.

(** ** Notions used by the properties *)

(** A key that [Generate] takes for a directive: its name, after
    [TrimPrefix], is in the registry. *)
Definition directive_key (g : Generator) (key : string) : bool :=
  isPredefinedVar (TrimPrefix key (prefix g)).

(** A directive token in the sense of the glossary: a reserved name behind
    the prefix. *)
Definition directive_token (p s : string) : bool :=
  HasPrefix s p && isPredefinedVar (TrimPrefix s p).

(** No directive token among the keys, the string values and the array
    elements of a template. *)
Fixpoint no_directive_tokens (p : string) (v : value) : bool :=
  match v with
  | VString s => negb (directive_token p s)
  | VArr l => forallb (no_directive_tokens p) l
  | VMap m =>
      map_fold
        (fun key x acc =>
           negb (directive_token p key) && no_directive_tokens p x && acc)
        true m
  | _ => true
  end.

(** No array anywhere in a template. *)
Fixpoint no_arrays (v : value) : bool :=
  match v with
  | VArr _ => false
  | VMap m => map_fold (fun _ x acc => no_arrays x && acc) true m
  | _ => true
  end.

(** A string the engine leaves alone: it does not start with the prefix and
    is not itself a registered name. *)
Definition literal_string (p s : string) : bool :=
  negb (HasPrefix s p) && negb (isPredefinedVar s).

(** A template made of literals only: every key and every string value that
    [Generate] reaches is a [literal_string].  Arrays are not entered. *)
Fixpoint plain (p : string) (v : value) : bool :=
  match v with
  | VString s => literal_string p s
  | VMap m =>
      map_fold (fun key x acc => literal_string p key && plain p x && acc)
        true m
  | _ => true
  end.

(** An Array, a Number (the float64 of a JSON template, or one of the
    integer types a directive returns), a Boolean or Null. *)
Definition array_number_boolean_null (v : value) : bool :=
  match v with
  | VString _ | VMap _ => false
  | _ => true
  end.

(** [resolved_pairs gen ents acc w acc' w']: starting from the map [acc] in
    world [w], every key of [ents] resolves to a string and every value
    resolves, in order, and [acc'] is [acc] with the resolved pairs stored. *)
Inductive resolved_pairs (gen : value -> M value) :
    list (string * value) -> gmap string value -> world ->
    gmap string value -> world -> Prop :=
  | resolved_nil acc w : resolved_pairs gen [] acc w acc w
  | resolved_cons key val rest acc w strKey w1 resolvedVal w2 acc' w' :
      gen (VString key) w = Ok (VString strKey) w1 ->
      gen val w1 = Ok resolvedVal w2 ->
      resolved_pairs gen rest (<[ strKey := resolvedVal ]> acc) w2 acc' w' ->
      resolved_pairs gen ((key, val) :: rest) acc w acc' w'.

(** [resolutions gen val w l w']: [l] lists the results of successive,
    independent resolutions of [val], the first in world [w], the last
    leaving world [w']. *)
Inductive resolutions (gen : value -> M value) (val : value) :
    world -> list value -> world -> Prop :=
  | resolutions_nil w : resolutions gen val w [] w
  | resolutions_cons w x w1 xs w2 :
      gen val w = Ok x w1 ->
      resolutions gen val w1 xs w2 ->
      resolutions gen val w (x :: xs) w2.

(** [refines c1 c2]: whenever [c1] finishes within its fuel, [c2] has the
    same outcome. *)
Definition refines {A : Type} (c1 c2 : M A) : Prop :=
  forall w, c1 w <> Timeout -> c2 w = c1 w.

(** The directives that take no parameter: the cases of [resolveVar] that
    neither read [params] nor call [Generate]. *)
Definition parameterless : list string :=
  [ "i"; "u8"; "u16"; "u32"; "i8"; "i16"; "i32"; "i64"; "digit"; "bool";
    "alpha" ].

(** The integer types a directive can return, other than [int]. *)
Definition sized_integer (v : value) : bool :=
  match v with
  | VUint8 _ | VUint16 _ | VUint32 _
  | VInt8 _ | VInt16 _ | VInt32 _ | VInt64 _ => true
  | _ => false
  end.

(** [resolved_list gen l w rs w']: the elements of [l] resolve one after the
    other, from world [w] to world [w'], to the values [rs]. *)
Inductive resolved_list (gen : value -> M value) :
    list value -> world -> list value -> world -> Prop :=
  | resolved_list_nil w : resolved_list gen [] w [] w
  | resolved_list_cons elem rest w r w1 rs w' :
      gen elem w = Ok r w1 ->
      resolved_list gen rest w1 rs w' ->
      resolved_list gen (elem :: rest) w (r :: rs) w'.

(** [refers g t t']: the string [t] is a reference to a user variable of
    [g] whose stored value is the string [t']. *)
Definition refers (g : Generator) (t t' : string) : Prop :=
  HasPrefix t (prefix g) = true
  /\ isPredefinedVar (TrimPrefix t (prefix g)) = false
  /\ vars g !! TrimPrefix t (prefix g) = Some (VString t').

(** The names of the directives that return a sized integer. *)
Definition sized_integer_names : list string :=
  [ "u8"; "u16"; "u32"; "i8"; "i16"; "i32"; "i64" ].

(** ** Concrete inputs *)

(** The generator [newGenerator] builds when no variable is given. *)
Definition dollar_generator : Generator := mkGenerator "$" ∅.

(** A world whose answers are all 0. *)
Definition zero_world : world := mkWorld [] [].

(** A JSON number with an integer value. *)
Definition number (z : Z) : value := VFloat64 (inject_Z z).

(** A JSON object given by its members. *)
Definition object (members : list (string * value)) : value :=
  VMap (list_to_map members).

(** A printer to run the engine on concrete inputs that do not go through
    the [str] directive. *)
Definition Sprint_unused (_ : value) : string := "".

(** A printer for the examples that go through [str]: a string prints as
    itself, as with [fmt.Sprint]; the examples print nothing else. *)
Definition Sprint_strings (v : value) : string :=
  match v with
  | VString s => s
  | _ => ""
  end.

(** ** The resolution engine *)

Section Engine.

(** [fmt.Sprint] / [fmt.Sprintf("%v", _)] of the standard library: how a
    value is printed.  It is not code of this repository, and only the [str]
    directive uses it. *)
Variable Sprint : value -> string.

(** [joinAnySlice]: only a slice (kind [reflect.Slice]) is accepted. *)
Definition joinAnySlice (result : value) : string + error :=
  match result with
  | VArr l => inl (String.concat "" (map Sprint l))
  | _ => inr (ErrExpectedSlice result)
  end.

Section ResolveVar.

(** The recursive calls [g.Generate(i, _)] made by [resolveVar]. *)
Variable Generate : Z -> value -> M value.
Variable g : Generator.

(** case "int" *)
Definition case_int (params : value) : M value :=
  match params with
  | VMap paramsMap =>
      let (min, minOk) := convertToInt (index_or_nil paramsMap "min") in
      let (max, maxOk) := convertToInt (index_or_nil paramsMap "max") in
      if negb minOk || negb maxOk then throw ErrIntInvalidMinMax
      else
        let* r := rand_IntN (int_add (int_sub max min) 1) in
        ret (VInt (int_add r min))
  | _ => throw ErrIntRequires
  end.

(** The loop of case "str" over the parameter list. *)
Fixpoint str_loop (i : Z) (paramsList : list value) (strBuilder : string) : M value :=
  match paramsList with
  | [] => ret (VString strBuilder)
  | elem :: rest =>
      let* resolved := Generate i elem in
      str_loop i rest (strBuilder ++ Sprint resolved)
  end.

(** case "str" *)
Definition case_str (params : value) (i : Z) : M value :=
  match params with
  | VArr paramsList => str_loop i paramsList ""
  | _ =>
      let* result := Generate i params in
      match joinAnySlice result with
      | inl resultStr => ret (VString resultStr)
      | inr err => throw err
      end
  end.

(** The loop of case "arr": [n] independent resolutions of [val], in index
    order. *)
Fixpoint arr_loop (i : Z) (val : value) (n : nat) : M (list value) :=
  match n with
  | O => ret []
  | S n' =>
      let* resolvedVal := Generate i val in
      let* rest := arr_loop i val n' in
      ret (resolvedVal :: rest)
  end.

(** case "arr".  [make([]interface{}, length)] panics on a negative
    length; memory limits are not modelled. *)
Definition case_arr (params : value) (i : Z) : M value :=
  match params with
  | VMap paramsMap =>
      let* resolvedLen :=
        wrap_err ErrArrLen (Generate i (index_or_nil paramsMap "len")) in
      let (length, ok) := convertToInt resolvedLen in
      if negb ok then throw ErrArrInvalidLen
      else
        match paramsMap !! "val" with
        | None => throw ErrArrMissingVal
        | Some val =>
            if length <? 0 then raise_panic PanicMakeslice
            else
              let* arr := arr_loop i val (Z.to_nat length) in
              ret (VArr arr)
        end
  | _ => throw ErrArrRequires
  end.

(** case "obj" *)
Definition case_obj (params : value) (i : Z) : M value :=
  match params with
  | VArr paramsList =>
      if (0 <? Z.of_nat (length paramsList)) then
        let* randomIndex := rand_IntN (Z.of_nat (length paramsList)) in
        match paramsList !! Z.to_nat randomIndex with
        | Some (VMap selectedObj) => Generate i (VMap selectedObj)
        | Some _ => throw ErrObjMustContain
        | None => raise_panic PanicIndex
        end
      else throw ErrObjRequires
  | _ => throw ErrObjRequires
  end.

(** case "oneof" *)
Definition case_oneof (params : value) (i : Z) : M value :=
  match params with
  | VArr paramsList =>
      let* randomIndex := rand_IntN (Z.of_nat (length paramsList)) in
      match paramsList !! Z.to_nat randomIndex with
      | Some oneof => Generate i oneof
      | None => raise_panic PanicIndex
      end
  | _ => throw ErrOneofRequires
  end.

(** case "option" *)
Definition case_option (params : value) (i : Z) : M value :=
  match params with
  | VNil => throw ErrOptionRequires
  | _ =>
      let oneofParams := VArr [params] in
      Generate i (VMap {[ "$oneof" := oneofParams ]})
  end.

(** case "alpha" *)
Definition case_alpha : M value :=
  let* c := rand_IntN 2 in
  if c =? 0 then
    let* r := rand_IntN 26 in ret (VString (letter 97 r))
  else
    let* r := rand_IntN 26 in ret (VString (letter 65 r)).

(** The default case: user-defined variables and literal strings. *)
Definition case_default (prefix variable : string) (i : Z) : M value :=
  if HasPrefix variable prefix then
    match vars g !! TrimPrefix variable prefix with
    | Some userdefinedVar =>
        wrap_err (ErrResolveVariable variable) (Generate i userdefinedVar)
    | None => throw (ErrUndefinedVariable variable)
    end
  else ret (VString variable).

(** [Generator.resolveVar]: the [switch] on the trimmed name. *)
Definition resolveVar_with (prefix variable : string) (params : value) (i : Z) : M value :=
  let trimmedVar := TrimPrefix variable prefix in
  if String.eqb trimmedVar "int" then case_int params
  else if String.eqb trimmedVar "str" then case_str params i
  else if String.eqb trimmedVar "arr" then case_arr params i
  else if String.eqb trimmedVar "obj" then case_obj params i
  else if String.eqb trimmedVar "oneof" then case_oneof params i
  else if String.eqb trimmedVar "option" then case_option params i
  else if String.eqb trimmedVar "i" then ret (VInt i)
  else if String.eqb trimmedVar "u8" then
    let* r := rand_UintN 256 in ret (VUint8 r)
  else if String.eqb trimmedVar "u16" then
    let* r := rand_UintN 65536 in ret (VUint16 r)
  else if String.eqb trimmedVar "u32" then
    let* r := rand_Uint32 in ret (VUint32 r)
  else if String.eqb trimmedVar "i8" then
    let* r := rand_IntN 256 in ret (VInt8 (r - 128))
  else if String.eqb trimmedVar "i16" then
    let* r := rand_IntN 65536 in ret (VInt16 (r - 32768))
  else if String.eqb trimmedVar "i32" then
    let* r := rand_Int32 in ret (VInt32 r)
  else if String.eqb trimmedVar "i64" then
    let* r := rand_Int64 in ret (VInt64 r)
  else if String.eqb trimmedVar "digit" then
    let* r := rand_IntN 10 in ret (VInt r)
  else if String.eqb trimmedVar "bool" then
    let* r := rand_IntN 2 in ret (VBool (r =? 1))
  else if String.eqb trimmedVar "alpha" then case_alpha
  else case_default prefix variable i.

(** The body of [for key, val := range t] in [Generate], over the entries in
    the order the loop visits them; [generated] is the map built so far. *)
Fixpoint range_loop (i : Z) (ents : list (string * value))
    (generated : gmap string value) : M value :=
  match ents with
  | [] => ret (VMap generated)
  | (key, val) :: rest =>
      if isPredefinedVar (TrimPrefix key (prefix g)) then
        wrap_err (ErrResolveGenerator key)
          (resolveVar_with (prefix g) key val i)
      else
        let* resolvedKey :=
          wrap_err (ErrResolveKey key) (Generate i (VString key)) in
        let* resolvedVal :=
          wrap_err (ErrResolveVal val) (Generate i val) in
        match resolvedKey with
        | VString strKey =>
            range_loop i rest (<[ strKey := resolvedVal ]> generated)
        | _ => throw ErrKeysMustBeStrings
        end
  end.

End ResolveVar.

(** [Generator.Generate].  Each call spends one unit of fuel; the calls it
    makes (directly and through [resolveVar]) get the rest. *)
Fixpoint Generate (fuel : nat) (g : Generator) (i : Z) (template : value) : M value :=
  match fuel with
  | O => fun _ => Timeout
  | S fuel' =>
      match template with
      | VMap t =>
          fun w =>
            let (k, w') := next_order w in
            range_loop (Generate fuel' g) g i (range_entries k t) ∅ w'
      | VString t =>
          wrap_err (ErrResolveVariable t)
            (resolveVar_with (Generate fuel' g) g (prefix g) t VNil i)
      | _ => ret template
      end
  end.

#[local] Arguments Generate : simpl never.

(** [Generator.resolveVar], its calls to [Generate] running on [fuel]. *)
Definition resolveVar (fuel : nat) (g : Generator) :
    string -> string -> value -> Z -> M value :=
  resolveVar_with (Generate fuel g) g.

(** ** Basic facts *)

Lemma Generate_S fuel g i template :
  Generate (S fuel) g i template
  = match template with
    | VMap t =>
        fun w =>
          let (k, w') := next_order w in
          range_loop (Generate fuel g) g i (range_entries k t) ∅ w'
    | VString t =>
        wrap_err (ErrResolveVariable t)
          (resolveVar_with (Generate fuel g) g (prefix g) t VNil i)
    | _ => ret template
    end.
Proof. reflexivity. Qed.

Lemma insert_at_Permutation {A : Type} (n : nat) (x : A) (l : list A) :
  Permutation (insert_at n x l) (x :: l).
Proof.
  revert n; induction l as [|y l IH]; intros [|n]; simpl; try reflexivity.
  rewrite IH. apply perm_swap.
Qed.

Lemma shuffle_Permutation {A : Type} (k : nat) (l : list A) :
  Permutation (shuffle k l) l.
Proof.
  revert k; induction l as [|x t IH]; intros k; simpl; [reflexivity|].
  rewrite insert_at_Permutation. constructor. apply IH.
Qed.

Lemma insert_at_middle {A : Type} (x : A) (l1 l2 : list A) :
  insert_at (length l1) x (l1 ++ l2) = (l1 ++ x :: l2)%list.
Proof.
  induction l1 as [|y l1 IH]; simpl; [destruct l2; reflexivity|].
  rewrite IH. reflexivity.
Qed.

(** Every order of the entries is the answer to some choice [k]. *)
Lemma shuffle_complete {A : Type} (l l' : list A) :
  Permutation l l' -> exists k, shuffle k l = l'.
Proof.
  revert l'. induction l as [|x t IH]; intros l' Hp.
  - apply Permutation_nil_l in Hp. subst l'. exists 0%nat. reflexivity.
  - assert (Hin : x ∈ l') by (rewrite <- Hp; left).
    apply list_elem_of_split in Hin as (l1 & l2 & ->).
    apply Permutation_cons_app_inv in Hp.
    destruct (IH _ Hp) as [k' Hk'].
    assert (Hlen : length t = length (l1 ++ l2))
      by (apply Permutation_length, Hp).
    rewrite length_app in Hlen.
    exists (length l1 + S (length t) * k')%nat.
    change (insert_at ((length l1 + S (length t) * k') mod S (length t)) x
              (shuffle ((length l1 + S (length t) * k') / S (length t)) t)
            = (l1 ++ x :: l2)%list).
    replace ((length l1 + S (length t) * k') mod S (length t))%nat
      with (length l1)
      by (apply (Nat.mod_unique _ _ k'); lia).
    replace ((length l1 + S (length t) * k') / S (length t))%nat
      with k'
      by (apply (Nat.div_unique _ _ _ (length l1)); lia).
    rewrite Hk'. apply insert_at_middle.
Qed.

Lemma range_entries_Permutation (k : nat) (m : gmap string value) :
  Permutation (range_entries k m) (map_to_list m).
Proof. apply shuffle_Permutation. Qed.

Lemma range_entries_lookup (k : nat) (m : gmap string value) key val :
  (key, val) ∈ range_entries k m <-> m !! key = Some val.
Proof.
  rewrite (range_entries_Permutation k m). apply elem_of_map_to_list.
Qed.

Lemma range_entries_singleton (k : nat) key val :
  range_entries k {[ key := val ]} = [(key, val)].
Proof.
  unfold range_entries. rewrite map_to_list_singleton. reflexivity.
Qed.

Lemma TrimPrefix_no_prefix (s p : string) :
  HasPrefix s p = false -> TrimPrefix s p = s.
Proof. unfold TrimPrefix. intros ->. reflexivity. Qed.

Lemma map_err_Ok {A : Type} (f : error -> error) (o : outcome A) a w :
  map_err f o = Ok a w <-> o = Ok a w.
Proof. destruct o; simpl; split; congruence. Qed.

(** A name outside the registry falls through every case of the switch. *)
Lemma resolveVar_with_default gen g p variable params i :
  isPredefinedVar (TrimPrefix variable p) = false ->
  resolveVar_with gen g p variable params i = case_default gen g p variable i.
Proof.
  intros H. unfold resolveVar_with.
  repeat
    match goal with
    | |- context [String.eqb ?a ?b] =>
        destruct (String.eqb_spec a b) as [E|_];
        [rewrite E in H; vm_compute in H; discriminate|]
    end.
  reflexivity.
Qed.

Lemma resolveVar_with_int gen g p variable params i :
  TrimPrefix variable p = "int" ->
  resolveVar_with gen g p variable params i = case_int params.
Proof. intros H. unfold resolveVar_with. rewrite H. reflexivity. Qed.

Lemma resolveVar_with_arr gen g p variable params i :
  TrimPrefix variable p = "arr" ->
  resolveVar_with gen g p variable params i = case_arr gen params i.
Proof. intros H. unfold resolveVar_with. rewrite H. reflexivity. Qed.

Lemma resolveVar_with_obj gen g p variable params i :
  TrimPrefix variable p = "obj" ->
  resolveVar_with gen g p variable params i = case_obj gen params i.
Proof. intros H. unfold resolveVar_with. rewrite H. reflexivity. Qed.

Lemma resolveVar_with_oneof gen g p variable params i :
  TrimPrefix variable p = "oneof" ->
  resolveVar_with gen g p variable params i = case_oneof gen params i.
Proof. intros H. unfold resolveVar_with. rewrite H. reflexivity. Qed.

Lemma resolveVar_with_option gen g p variable params i :
  TrimPrefix variable p = "option" ->
  resolveVar_with gen g p variable params i = case_option gen params i.
Proof. intros H. unfold resolveVar_with. rewrite H. reflexivity. Qed.

(** ** Literals and strings *)

(** C8: a template value that is an Array, a Number, a Boolean or Null is
    returned unchanged, whatever the iteration index, the variables and the
    world; in particular the elements of an array are not looked at, so a
    directive marker inside a literal array stays as it is. *)
Theorem C8_array_number_boolean_null_unchanged fuel g i template w :
  array_number_boolean_null template = true ->
  Generate (S fuel) g i template w = Ok template w.
Proof.
  rewrite Generate_S.
  destruct template; simpl; intros H; try discriminate H; reflexivity.
Qed.

(** The contrast the specification draws: the same array, given to the
    [str] directive as its parameter, is resolved element by element. *)
Lemma str_resolves_its_array fuel g i w :
  prefix g = "$" ->
  Generate (S fuel) g i (VArr [VString "$i"]) w = Ok (VArr [VString "$i"]) w
  /\ resolveVar (S fuel) g "$" "$str" (VArr [VString "$i"]) i w
     = Ok (VString (Sprint (VInt i))) w.
Proof.
  intros Hp. split; [reflexivity|].
  unfold resolveVar, resolveVar_with. simpl.
  unfold bind. rewrite Generate_S. simpl. rewrite Hp. reflexivity.
Qed.

(** C2: a string that does not start with the prefix and is not a directive
    name is returned as it is (whether or not a variable has that name); a
    string that starts with the prefix and whose stripped name is neither a
    directive nor a stored variable is an error that names the string as an
    undefined variable. *)
Theorem C2_string_literal_or_undefined fuel g i t w :
  isPredefinedVar (TrimPrefix t (prefix g)) = false ->
  (HasPrefix t (prefix g) = false ->
     Generate (S fuel) g i (VString t) w = Ok (VString t) w)
  /\ (HasPrefix t (prefix g) = true ->
      vars g !! TrimPrefix t (prefix g) = None ->
      Generate (S fuel) g i (VString t) w
      = Err (ErrResolveVariable t (ErrUndefinedVariable t))).
Proof.
  intros Hd. rewrite Generate_S. unfold wrap_err.
  rewrite (resolveVar_with_default _ _ _ _ _ _ Hd). unfold case_default.
  split.
  - intros ->. reflexivity.
  - intros -> ->. reflexivity.
Qed.

(** ** The list directives *)

Lemma mod_index_in_range (d : Z) (n : nat) :
  (0 < n)%nat -> (Z.to_nat (d mod Z.of_nat n) < n)%nat.
Proof.
  intros Hn.
  assert (0 <= d mod Z.of_nat n < Z.of_nat n) by (apply Z.mod_pos_bound; lia).
  lia.
Qed.

(** What [oneof] does on a non-empty list: one draw selects the element. *)
Lemma case_oneof_pick gen l i w :
  l <> [] ->
  exists x, l !! Z.to_nat (fst (draw w) mod Z.of_nat (length l)) = Some x
    /\ case_oneof gen (VArr l) i w = gen i x (snd (draw w)).
Proof.
  intros Hl.
  assert (Hlen : (0 < length l)%nat) by (destruct l; simpl; [congruence|lia]).
  destruct (lookup_lt_is_Some_2 l _ (mod_index_in_range (fst (draw w)) _ Hlen))
    as [x Hx].
  exists x. split; [exact Hx|].
  unfold case_oneof, bind, rand_IntN.
  destruct (Z.leb_spec (Z.of_nat (length l)) 0) as [Hle|_]; [lia|].
  destruct (draw w) as [d w1]. simpl in *. rewrite Hx. reflexivity.
Qed.

(** What [obj] does on a non-empty list. *)
Lemma case_obj_pick gen l i w :
  l <> [] ->
  exists x, l !! Z.to_nat (fst (draw w) mod Z.of_nat (length l)) = Some x
    /\ case_obj gen (VArr l) i w
       = match x with
         | VMap _ => gen i x (snd (draw w))
         | _ => Err ErrObjMustContain
         end.
Proof.
  intros Hl.
  assert (Hlen : (0 < length l)%nat) by (destruct l; simpl; [congruence|lia]).
  destruct (lookup_lt_is_Some_2 l _ (mod_index_in_range (fst (draw w)) _ Hlen))
    as [x Hx].
  exists x. split; [exact Hx|].
  unfold case_obj, bind, rand_IntN.
  destruct (Z.ltb_spec 0 (Z.of_nat (length l))) as [_|Hle]; [|lia].
  destruct (Z.leb_spec (Z.of_nat (length l)) 0) as [Hle|_]; [lia|].
  destruct (draw w) as [d w1]. simpl in *. rewrite Hx.
  destruct x; reflexivity.
Qed.

(** C6: on a list of k >= 1 elements, [oneof] and [obj] return what
    resolving one of the listed elements returns (after the draw that selects
    it); on a one-element list that element is the only candidate.  [obj]
    fails when the list is empty and when the selected element is not an
    object. *)
Theorem C6_oneof_obj_select fuel g p variable l i w :
  l <> [] ->
  (TrimPrefix variable p = "oneof" ->
     (exists x, x ∈ l /\
        resolveVar fuel g p variable (VArr l) i w
        = Generate fuel g i x (snd (draw w)))
     /\ (forall v, l = [v] ->
           resolveVar fuel g p variable (VArr l) i w
           = Generate fuel g i v (snd (draw w))))
  /\ (TrimPrefix variable p = "obj" ->
      (exists x, x ∈ l /\
         resolveVar fuel g p variable (VArr l) i w
         = match x with
           | VMap _ => Generate fuel g i x (snd (draw w))
           | _ => Err ErrObjMustContain
           end)
      /\ (forall v, l = [v] ->
            resolveVar fuel g p variable (VArr l) i w
            = match v with
              | VMap _ => Generate fuel g i v (snd (draw w))
              | _ => Err ErrObjMustContain
              end)
      /\ resolveVar fuel g p variable (VArr []) i w = Err ErrObjRequires).
Proof.
  intros Hl. unfold resolveVar. split; intros Hv.
  - rewrite (resolveVar_with_oneof _ _ _ _ _ _ Hv).
    destruct (case_oneof_pick (Generate fuel g) l i w Hl) as (x & Hx & Hr).
    split.
    + exists x. split; [|exact Hr]. eapply list_elem_of_lookup_2, Hx.
    + intros v ->. rewrite Hr. simpl in Hx.
      rewrite Z.mod_1_r in Hx. simpl in Hx.
      injection Hx as <-. reflexivity.
  - rewrite !(resolveVar_with_obj _ _ _ _ _ _ Hv).
    destruct (case_obj_pick (Generate fuel g) l i w Hl) as (x & Hx & Hr).
    split; [|split].
    + exists x. split; [|exact Hr]. eapply list_elem_of_lookup_2, Hx.
    + intros v ->. rewrite Hr. simpl in Hx.
      rewrite Z.mod_1_r in Hx. simpl in Hx.
      injection Hx as <-. reflexivity.
    + reflexivity.
Qed.

(** C10: [oneof] on an empty list asks [rand.IntN] for a value below 0
    elements and panics: it returns neither a value nor an error, for any
    fuel; [obj] on an empty list returns an error. *)
Theorem C10_oneof_empty_list_panics fuel g p variable variable' i w :
  TrimPrefix variable p = "oneof" ->
  TrimPrefix variable' p = "obj" ->
  resolveVar fuel g p variable (VArr []) i w = Panic PanicIntN
  /\ resolveVar fuel g p variable' (VArr []) i w = Err ErrObjRequires.
Proof.
  intros Ho Hb. unfold resolveVar.
  rewrite (resolveVar_with_oneof _ _ _ _ _ _ Ho).
  rewrite (resolveVar_with_obj _ _ _ _ _ _ Hb).
  split; reflexivity.
Qed.

(** ** The [int] directive *)

Lemma wrap_int_small (z : Z) : int_min <= z <= int_max -> wrap_int z = z.
Proof.
  unfold wrap_int, int_min, int_max. intros H.
  rewrite Z.mod_small by lia. lia.
Qed.

(** A bound that is absent reads as [nil], which is not a number. *)
Lemma missing_bound_not_numeric (paramsMap : gmap string value) name :
  paramsMap !! name = None ->
  snd (convertToInt (index_or_nil paramsMap name)) = false.
Proof. unfold index_or_nil. intros ->. reflexivity. Qed.

(** [case_int] once both bounds have been converted. *)
Lemma case_int_numeric paramsMap lo hi w :
  convertToInt (index_or_nil paramsMap "min") = (lo, true) ->
  convertToInt (index_or_nil paramsMap "max") = (hi, true) ->
  case_int (VMap paramsMap) w
  = (let* r := rand_IntN (int_add (int_sub hi lo) 1) in
     ret (VInt (int_add r lo))) w.
Proof. unfold case_int. intros -> ->. reflexivity. Qed.

(** C3, as the code has it: the bounds are converted with [convertToInt]
    (a float64 loses its fraction), giving lo and hi.  When lo <= hi fit an
    int and hi - lo + 1 does not overflow, every world yields an int of
    [lo, hi], which is lo when lo = hi.  When a bound is missing or is not a
    number, the result is an error. *)
Theorem C3_int_within_converted_bounds fuel g p variable paramsMap i w :
  TrimPrefix variable p = "int" ->
  (forall lo hi,
     convertToInt (index_or_nil paramsMap "min") = (lo, true) ->
     convertToInt (index_or_nil paramsMap "max") = (hi, true) ->
     int_min <= lo -> lo <= hi -> hi <= int_max -> hi - lo < int_max ->
     exists r w',
       resolveVar fuel g p variable (VMap paramsMap) i w = Ok (VInt r) w'
       /\ lo <= r <= hi /\ (lo = hi -> r = lo))
  /\ (snd (convertToInt (index_or_nil paramsMap "min")) = false
      \/ snd (convertToInt (index_or_nil paramsMap "max")) = false ->
      resolveVar fuel g p variable (VMap paramsMap) i w
      = Err ErrIntInvalidMinMax)
  /\ (paramsMap !! "min" = None \/ paramsMap !! "max" = None ->
      resolveVar fuel g p variable (VMap paramsMap) i w
      = Err ErrIntInvalidMinMax).
Proof.
  intros Hv. unfold resolveVar.
  rewrite (resolveVar_with_int _ _ _ _ _ _ Hv).
  assert (Hbad : snd (convertToInt (index_or_nil paramsMap "min")) = false
      \/ snd (convertToInt (index_or_nil paramsMap "max")) = false ->
      case_int (VMap paramsMap) w = Err ErrIntInvalidMinMax).
  { unfold case_int.
    destruct (convertToInt (index_or_nil paramsMap "min")) as [lo [|]];
    destruct (convertToInt (index_or_nil paramsMap "max")) as [hi [|]];
    simpl; intros [H|H]; try discriminate H; reflexivity. }
  split; [|split].
  - intros lo hi Hlo Hhi H1 H2 H3 H4.
    rewrite (case_int_numeric _ _ _ _ Hlo Hhi).
    unfold int_add, int_sub, int_min, int_max in *.
    rewrite (wrap_int_small (hi - lo))
      by (unfold int_min, int_max; lia).
    rewrite (wrap_int_small (hi - lo + 1))
      by (unfold int_min, int_max; lia).
    unfold bind, rand_IntN.
    destruct (Z.leb_spec (hi - lo + 1) 0) as [Hle|_]; [lia|].
    destruct (draw w) as [d w1].
    assert (Hr : 0 <= d mod (hi - lo + 1) < hi - lo + 1)
      by (apply Z.mod_pos_bound; lia).
    exists (d mod (hi - lo + 1) + lo), w1.
    rewrite wrap_int_small by (unfold int_min, int_max; lia).
    split; [reflexivity|]. split; lia.
  - exact Hbad.
  - intros [H|H]; apply Hbad; [left|right];
      apply missing_bound_not_numeric; exact H.
Qed.

(** C4, what the code does: with converted bounds lo > hi (and hi - lo
    within an int) the argument of [rand.IntN] is not positive, and the call
    panics; no error is returned. *)
Theorem C4_int_inverted_bounds_panic fuel g p variable paramsMap i w lo hi :
  TrimPrefix variable p = "int" ->
  convertToInt (index_or_nil paramsMap "min") = (lo, true) ->
  convertToInt (index_or_nil paramsMap "max") = (hi, true) ->
  hi < lo -> int_min <= hi - lo ->
  resolveVar fuel g p variable (VMap paramsMap) i w = Panic PanicIntN.
Proof.
  intros Hv Hlo Hhi H1 H2. unfold resolveVar.
  rewrite (resolveVar_with_int _ _ _ _ _ _ Hv).
  rewrite (case_int_numeric _ _ _ _ Hlo Hhi).
  unfold int_add, int_sub.
  rewrite (wrap_int_small (hi - lo)) by (unfold int_min, int_max in *; lia).
  rewrite (wrap_int_small (hi - lo + 1)) by (unfold int_min, int_max in *; lia).
  unfold bind, rand_IntN.
  destruct (Z.leb_spec (hi - lo + 1) 0) as [_|Hgt]; [reflexivity|lia].
Qed.

(** ** The [arr] directive *)

(** The loop of [arr] succeeds exactly when [n] successive resolutions of
    [val] succeed, and then returns their results in order. *)
Lemma arr_loop_resolutions gen i val n w l w' :
  arr_loop gen i val n w = Ok l w'
  <-> resolutions (gen i) val w l w' /\ length l = n.
Proof.
  revert w l w'. induction n as [|n IH]; intros w l w'; simpl.
  - unfold ret. split.
    + intros [= <- <-]. split; [constructor|reflexivity].
    + intros [Hr Hl]. destruct l; [|discriminate Hl].
      inversion Hr; subst. reflexivity.
  - unfold bind at 1. split.
    + destruct (gen i val w) as [x w1| | |] eqn:Hx; try discriminate.
      unfold bind. destruct (arr_loop gen i val n w1) as [xs w2| | |] eqn:Hxs;
        try discriminate.
      unfold ret. intros [= <- <-].
      apply IH in Hxs as [Hr Hl]. split; [|simpl; congruence].
      econstructor; eassumption.
    + intros [Hr Hl]. destruct l as [|x xs]; [discriminate Hl|].
      inversion Hr as [|? ? w1 ? ? Hx Hxs]; subst.
      rewrite Hx. unfold bind.
      assert (Hloop : arr_loop gen i val n w1 = Ok xs w')
        by (apply IH; split; [exact Hxs|simpl in Hl; congruence]).
      rewrite Hloop. reflexivity.
Qed.

(** [case_arr] once [len] has resolved to [resolvedLen]. *)
Lemma case_arr_after_len gen paramsMap i w resolvedLen w1 :
  gen i (index_or_nil paramsMap "len") w = Ok resolvedLen w1 ->
  case_arr gen (VMap paramsMap) i w
  = (let (length, ok) := convertToInt resolvedLen in
     if negb ok then throw ErrArrInvalidLen
     else
       match paramsMap !! "val" with
       | None => throw ErrArrMissingVal
       | Some val =>
           if length <? 0 then raise_panic PanicMakeslice
           else
             let* arr := arr_loop gen i val (Z.to_nat length) in
             ret (VArr arr)
       end) w1.
Proof.
  intros H. unfold case_arr. unfold bind at 1, wrap_err. rewrite H.
  reflexivity.
Qed.

(** C5, as the code has it: [len] is resolved first.  If it resolves to a
    value that [convertToInt] rejects (anything but a float64 or an int), or
    is missing, the result is an error; otherwise it is converted to an int n
    (a float64 loses its fraction), a missing [val] is an error, and for
    n >= 0 the call succeeds exactly when n successive resolutions of [val]
    succeed, returning the array of their n results. *)
Theorem C5_arr_repeats_val fuel g p variable paramsMap i w :
  TrimPrefix variable p = "arr" ->
  let run := resolveVar (S fuel) g p variable (VMap paramsMap) i w in
  (paramsMap !! "len" = None -> run = Err ErrArrInvalidLen)
  /\ (forall e,
        Generate (S fuel) g i (index_or_nil paramsMap "len") w = Err e ->
        run = Err (ErrArrLen e))
  /\ (forall resolvedLen w1,
        Generate (S fuel) g i (index_or_nil paramsMap "len") w
        = Ok resolvedLen w1 ->
        (snd (convertToInt resolvedLen) = false -> run = Err ErrArrInvalidLen)
        /\ (forall n, convertToInt resolvedLen = (n, true) ->
              (paramsMap !! "val" = None -> run = Err ErrArrMissingVal)
              /\ (forall val, paramsMap !! "val" = Some val -> 0 <= n ->
                    (forall v w', run = Ok v w' ->
                       exists arr, v = VArr arr
                         /\ Z.of_nat (length arr) = n
                         /\ resolutions (Generate (S fuel) g i) val w1 arr w')
                    /\ (forall arr w',
                          resolutions (Generate (S fuel) g i) val w1 arr w' ->
                          Z.of_nat (length arr) = n ->
                          run = Ok (VArr arr) w')))).
Proof.
  intros Hv run. unfold run, resolveVar.
  rewrite (resolveVar_with_arr _ _ _ _ _ _ Hv).
  split; [|split].
  - intros Hnone.
    rewrite (case_arr_after_len _ _ _ _ VNil w).
    + reflexivity.
    + unfold index_or_nil. rewrite Hnone. reflexivity.
  - intros e He. unfold case_arr, bind, wrap_err. rewrite He. reflexivity.
  - intros resolvedLen w1 Hlen.
    rewrite (case_arr_after_len _ _ _ _ _ _ Hlen).
    split.
    + destruct (convertToInt resolvedLen) as [n [|]]; simpl;
        [discriminate|reflexivity].
    + intros n ->. simpl. split.
      * intros ->. reflexivity.
      * intros val -> Hn.
        destruct (Z.ltb_spec n 0) as [Hneg|_]; [lia|].
        unfold bind, ret. split.
        -- intros v w'.
           destruct (arr_loop (Generate (S fuel) g) i val (Z.to_nat n) w1)
             as [arr w2| | |] eqn:Hloop; try discriminate.
           intros [= <- <-].
           apply arr_loop_resolutions in Hloop as [Hr Hl].
           exists arr. split; [reflexivity|]. split; [lia|exact Hr].
        -- intros arr w' Hr Hl.
           assert (Hloop :
             arr_loop (Generate (S fuel) g) i val (Z.to_nat n) w1 = Ok arr w')
             by (apply arr_loop_resolutions; split; [exact Hr|lia]).
           rewrite Hloop. reflexivity.
Qed.

(** ** The [option] directive *)

(** C7: for a parameter v other than nil, [option] returns what resolving
    the one-key object [{"$oneof": [v]}] returns.  With the prefix "$" (the
    only one [newGenerator] sets) that object is a [oneof] directive over the
    one-element list [v]: the outcome is that of [oneof] on [[v]], an error
    being wrapped with the key "$oneof", which in turn is the outcome of
    resolving v.  So [option] returns a value exactly when v resolves, and
    returns that value. *)
Theorem C7_option_is_oneof_of_singleton fuel g p variable v i w :
  TrimPrefix variable p = "option" ->
  prefix g = "$" ->
  v <> VNil ->
  let run := resolveVar (S fuel) g p variable v i w in
  let w1 := snd (next_order w) in
  run = Generate (S fuel) g i (VMap {[ "$oneof" := VArr [v] ]}) w
  /\ run = map_err (ErrResolveGenerator "$oneof")
             (resolveVar fuel g "$" "$oneof" (VArr [v]) i w1)
  /\ run = map_err (ErrResolveGenerator "$oneof")
             (Generate fuel g i v (snd (draw w1)))
  /\ (forall x w',
        run = Ok x w' <-> Generate fuel g i v (snd (draw w1)) = Ok x w').
Proof.
  intros Hv Hp Hnil run w1.
  assert (H1 : run = Generate (S fuel) g i (VMap {[ "$oneof" := VArr [v] ]}) w).
  { unfold run, resolveVar.
    rewrite (resolveVar_with_option _ _ _ _ _ _ Hv).
    unfold case_option. destruct v; try reflexivity. congruence. }
  assert (H2 : run = map_err (ErrResolveGenerator "$oneof")
             (resolveVar fuel g "$" "$oneof" (VArr [v]) i w1)).
  { rewrite H1, Generate_S. unfold w1.
    destruct (next_order w) as [k w']. rewrite range_entries_singleton.
    simpl. rewrite Hp. reflexivity. }
  assert (H3 : resolveVar fuel g "$" "$oneof" (VArr [v]) i w1
               = Generate fuel g i v (snd (draw w1))).
  { unfold resolveVar.
    rewrite (resolveVar_with_oneof _ _ "$" "$oneof" _ _ eq_refl).
    destruct (case_oneof_pick (Generate fuel g) [v] i w1) as (x & Hx & Hr);
      [discriminate|].
    rewrite Hr. simpl in Hx. rewrite Z.mod_1_r in Hx. simpl in Hx.
    injection Hx as <-. reflexivity. }
  split; [exact H1|]. split; [exact H2|].
  rewrite <- H3. split; [exact H2|].
  intros x w'. rewrite H2. apply map_err_Ok.
Qed.

(** ** Objects *)

(** Over entries none of which is a directive key, the loop of [Generate]
    returns a value exactly when all keys and values resolve, keys to
    strings, and then returns the map of the resolved pairs. *)
Lemma range_loop_plain gen g i ents acc w v w' :
  Forall (fun kv => directive_key g kv.1 = false) ents ->
  range_loop gen g i ents acc w = Ok v w'
  <-> exists acc', v = VMap acc' /\ resolved_pairs (gen i) ents acc w acc' w'.
Proof.
  intros Hents. revert acc w.
  induction Hents as [|[key val] rest Hkey _ IH]; intros acc w; simpl.
  - unfold ret. split.
    + intros [= <- <-]. eexists. split; [reflexivity|constructor].
    + intros (acc' & -> & Hr). inversion Hr; subst. reflexivity.
  - unfold directive_key in Hkey. simpl in Hkey. rewrite Hkey.
    unfold bind, wrap_err. split.
    + destruct (gen i (VString key) w) as [rk w1| | |] eqn:Hk;
        try discriminate.
      simpl. destruct (gen i val w1) as [rv w2| | |] eqn:Hval;
        try discriminate.
      simpl. destruct rk; try discriminate.
      intros Hloop. apply IH in Hloop as (acc' & -> & Hr).
      exists acc'. split; [reflexivity|]. econstructor; eassumption.
    + intros (acc' & -> & Hr).
      inversion Hr as [|? ? ? ? ? strKey w1 rv w2 ? ? Hk Hval Hrest]; subst.
      rewrite Hk. simpl. rewrite Hval. simpl.
      apply IH. exists acc'. split; [reflexivity|exact Hrest].
Qed.

(** The loop reaches a directive key after the entries [pre] have been
    resolved: the directive is invoked in the world they leave, and the
    entries behind it are not visited. *)
Lemma range_loop_directive gen g i pre key val post acc w acc' w2 :
  Forall (fun kv => directive_key g kv.1 = false) pre ->
  resolved_pairs (gen i) pre acc w acc' w2 ->
  directive_key g key = true ->
  range_loop gen g i (pre ++ (key, val) :: post)%list acc w
  = map_err (ErrResolveGenerator key)
      (resolveVar_with gen g (prefix g) key val i w2).
Proof.
  intros Hpre Hr Hkey. revert acc w Hr.
  induction Hpre as [|[k v] rest Hk _ IH]; intros acc w Hr; simpl.
  - inversion Hr; subst. unfold directive_key in Hkey. rewrite Hkey.
    reflexivity.
  - unfold directive_key in Hk. simpl in Hk. rewrite Hk.
    inversion Hr as [|? ? ? ? ? strKey w1 rv w3 ? ? Hrk Hrv Hrest]; subst.
    unfold bind, wrap_err. rewrite Hrk. simpl. rewrite Hrv. simpl.
    apply IH. exact Hrest.
Qed.

(** A value comes out of the loop only if the entries visited first, when
    none of them is a directive key, have all been resolved. *)
Lemma range_loop_app_plain gen g i pre rest acc w v w' :
  Forall (fun kv => directive_key g kv.1 = false) pre ->
  range_loop gen g i (pre ++ rest)%list acc w = Ok v w' ->
  exists acc' w2,
    resolved_pairs (gen i) pre acc w acc' w2
    /\ range_loop gen g i rest acc' w2 = Ok v w'.
Proof.
  intros Hpre. revert acc w.
  induction Hpre as [|[key val] pre Hkey _ IH]; intros acc w; simpl.
  - intros H. exists acc, w. split; [constructor|exact H].
  - unfold directive_key in Hkey. simpl in Hkey. rewrite Hkey.
    unfold bind, wrap_err.
    destruct (gen i (VString key) w) as [rk w1| | |] eqn:Hk; try discriminate.
    simpl. destruct (gen i val w1) as [rv w2| | |] eqn:Hval; try discriminate.
    simpl. destruct rk; try discriminate.
    intros Hloop. apply IH in Hloop as (acc' & w3 & Hr & Hrest).
    exists acc', w3. split; [|exact Hrest]. econstructor; eassumption.
Qed.

Lemma range_entries_NoDup (k : nat) (m : gmap string value) :
  NoDup ((range_entries k m).*1).
Proof.
  rewrite (range_entries_Permutation k m). apply NoDup_fst_map_to_list.
Qed.

(** C1, as the code has it.  The keys are visited in the order of the map
    iteration.  When exactly one key is a directive key, the entries [pre]
    visited before it are resolved first; if they all resolve (keys to
    strings), the result is that of invoking the directive on the value of
    its key, in the world those resolutions leave, with an error wrapped with
    the key; the entries [post] behind it are never visited.  An object whose
    only key is a directive key returns the result of the directive.  When no
    key is a directive key, the call returns a value exactly when every key
    and every value resolves, keys to strings, and the value is the object of
    the resolved pairs. *)
Theorem C1_object_resolution fuel g i (m : gmap string value) w :
  let ents := range_entries (fst (next_order w)) m in
  let w1 := snd (next_order w) in
  (forall key val,
     m !! key = Some val ->
     directive_key g key = true ->
     (forall key', is_Some (m !! key') ->
        directive_key g key' = true -> key' = key) ->
     exists pre post,
       ents = (pre ++ (key, val) :: post)%list
       /\ (forall acc w2,
             resolved_pairs (Generate fuel g i) pre ∅ w1 acc w2 ->
             Generate (S fuel) g i (VMap m) w
             = map_err (ErrResolveGenerator key)
                 (resolveVar fuel g (prefix g) key val i w2))
       /\ (forall v w',
             Generate (S fuel) g i (VMap m) w = Ok v w' ->
             exists acc w2,
               resolved_pairs (Generate fuel g i) pre ∅ w1 acc w2))
  /\ (forall key val,
        m = {[ key := val ]} ->
        directive_key g key = true ->
        Generate (S fuel) g i (VMap m) w
        = map_err (ErrResolveGenerator key)
            (resolveVar fuel g (prefix g) key val i w1))
  /\ ((forall key, is_Some (m !! key) -> directive_key g key = false) ->
      forall v w',
        Generate (S fuel) g i (VMap m) w = Ok v w'
        <-> exists acc,
              v = VMap acc
              /\ resolved_pairs (Generate fuel g i) ents ∅ w1 acc w').
Proof.
  intros ents w1.
  assert (Hgen : Generate (S fuel) g i (VMap m) w
                 = range_loop (Generate fuel g) g i ents ∅ w1).
  { rewrite Generate_S. unfold ents, w1. destruct (next_order w); reflexivity. }
  split; [|split].
  - intros key val Hm Hkey Honly.
    assert (Hin : (key, val) ∈ ents) by (apply range_entries_lookup, Hm).
    apply list_elem_of_split in Hin as (pre & post & Hsplit).
    exists pre, post. split; [exact Hsplit|].
    assert (Hpre : Forall (fun kv => directive_key g kv.1 = false) pre);
      [|split;
        [intros acc w2 Hr; rewrite Hgen, Hsplit;
         apply (range_loop_directive _ _ _ _ _ _ _ _ _ acc);
           [exact Hpre|exact Hr|exact Hkey]
        |intros v w' Hok; rewrite Hgen, Hsplit in Hok;
         apply (range_loop_app_plain _ _ _ _ _ _ _ _ _ Hpre) in Hok
           as (acc & w2 & Hr & _);
         exists acc, w2; exact Hr]].
    apply Forall_forall. intros [k v] Hkv. simpl.
    destruct (directive_key g k) eqn:Hk; [|reflexivity]. exfalso.
    assert (Hkm : m !! k = Some v).
    { apply (range_entries_lookup (fst (next_order w))). fold ents.
      rewrite Hsplit. apply elem_of_app. left. exact Hkv. }
    assert (k = key) as -> by (apply Honly; [eexists; exact Hkm|exact Hk]).
    pose proof (range_entries_NoDup (fst (next_order w)) m) as Hnd.
    fold ents in Hnd. rewrite Hsplit, fmap_app, fmap_cons in Hnd.
    apply NoDup_app in Hnd as (_ & Hdisj & _).
    apply (Hdisj key).
    + apply (list_elem_of_fmap_2 fst _ _ Hkv).
    + simpl. left.
  - intros key val -> Hkey. rewrite Hgen. unfold ents.
    rewrite range_entries_singleton.
    apply (range_loop_directive _ _ _ [] key val [] ∅ w1 ∅ w1);
      [constructor|constructor|exact Hkey].
  - intros Hnone v w'. rewrite Hgen. apply range_loop_plain.
    apply Forall_forall. intros [k x] Hkx. simpl. apply Hnone.
    exists x. apply (range_entries_lookup (fst (next_order w))). exact Hkx.
Qed.

(** ** Templates without tokens *)

Lemma plain_VMap_lookup p (m : gmap string value) key val :
  plain p (VMap m) = true ->
  m !! key = Some val ->
  literal_string p key = true /\ plain p val = true.
Proof.
  simpl. rewrite map_fold_foldr. intros H Hm.
  apply elem_of_map_to_list in Hm. revert H Hm.
  induction (map_to_list m) as [|[k x] l IH]; simpl; intros H Hin.
  - inversion Hin.
  - apply andb_prop in H as [H Hl]. apply andb_prop in H as [Hk Hx].
    apply elem_of_cons in Hin as [[= -> ->]|Hin]; [split; assumption|].
    apply IH; assumption.
Qed.

Lemma depth_VMap_lookup (m : gmap string value) key val :
  m !! key = Some val -> (depth val < depth (VMap m))%nat.
Proof.
  simpl. rewrite map_fold_foldr. intros Hm.
  apply elem_of_map_to_list in Hm. revert Hm.
  induction (map_to_list m) as [|[k x] l IH]; simpl; intros Hin.
  - inversion Hin.
  - apply elem_of_cons in Hin as [[= -> ->]|Hin]; [lia|].
    specialize (IH Hin). lia.
Qed.

(** Storing the pairs of a list one after the other. *)
Lemma foldl_insert_list_to_map (l : list (string * value))
    (acc : gmap string value) :
  foldl (fun a kv => <[ kv.1 := kv.2 ]> a) acc l
  = list_to_map (reverse l) ∪ acc.
Proof.
  revert acc. induction l as [|[k x] l IH]; intros acc; simpl.
  - rewrite (left_id_L ∅ (∪)). reflexivity.
  - rewrite IH, reverse_cons, list_to_map_app. simpl.
    rewrite <- (assoc_L (∪)). f_equal.
    rewrite insert_empty, <- insert_union_singleton_l. reflexivity.
Qed.

Lemma foldl_insert_range_entries (k : nat) (m : gmap string value) :
  foldl (fun a kv => <[ kv.1 := kv.2 ]> a) ∅ (range_entries k m) = m.
Proof.
  rewrite foldl_insert_list_to_map, (right_id_L ∅ (∪)).
  rewrite <- (list_to_map_to_list m) at 2.
  apply list_to_map_proper.
  - rewrite reverse_Permutation. apply range_entries_NoDup.
  - rewrite reverse_Permutation. apply range_entries_Permutation.
Qed.

(** A literal string is returned as it is. *)
Lemma Generate_literal_string fuel g i s w :
  literal_string (prefix g) s = true ->
  Generate (S fuel) g i (VString s) w = Ok (VString s) w.
Proof.
  unfold literal_string. intros H. apply andb_prop in H as [Hp Hd].
  apply negb_true_iff in Hp, Hd.
  rewrite Generate_S. unfold wrap_err.
  rewrite resolveVar_with_default
    by (rewrite (TrimPrefix_no_prefix _ _ Hp); exact Hd).
  unfold case_default. rewrite Hp. reflexivity.
Qed.

(** When every key and every value of the entries resolves to itself, the
    loop stores them all. *)
Lemma range_loop_identity gen g i ents acc w :
  (forall key val, (key, val) ∈ ents ->
     directive_key g key = false
     /\ (forall w0, gen i (VString key) w0 = Ok (VString key) w0)
     /\ (forall w0, exists w0',
           gen i val w0 = Ok val w0' /\ rand_draws w0' = rand_draws w0)) ->
  exists w',
    range_loop gen g i ents acc w
    = Ok (VMap (foldl (fun a kv => <[ kv.1 := kv.2 ]> a) acc ents)) w'
    /\ rand_draws w' = rand_draws w.
Proof.
  revert acc w. induction ents as [|[key val] rest IH]; intros acc w H; simpl.
  - exists w. split; reflexivity.
  - destruct (H key val) as (Hkey & Hk & Hval); [left|].
    unfold directive_key in Hkey. rewrite Hkey.
    unfold bind, wrap_err. rewrite Hk. simpl.
    destruct (Hval w) as (w1 & Hv & Hw1). rewrite Hv. simpl.
    destruct (IH (<[ key := val ]> acc) w1) as (w' & Hloop & Hw').
    { intros k x Hin. apply H. right. exact Hin. }
    exists w'. split; [exact Hloop|congruence].
Qed.

Lemma next_order_rand_draws w : rand_draws (snd (next_order w)) = rand_draws w.
Proof. unfold next_order. destruct (range_orders w); reflexivity. Qed.

(** C9, as the code has it: a template whose keys and string values neither
    start with the prefix nor are registered names (arrays may hold
    anything) resolves, for every iteration index, every variable store
    and every world, to itself, without using any random draw; fuel beyond
    the nesting depth of the template is enough. *)
Theorem C9_plain_template_round_trip fuel g i template w :
  plain (prefix g) template = true ->
  (depth template < fuel)%nat ->
  exists w',
    Generate fuel g i template w = Ok template w'
    /\ rand_draws w' = rand_draws w.
Proof.
  revert template w. induction fuel as [|fuel IH]; intros template w Hp Hd;
    [lia|].
  destruct template as [| | |s| |m| | | | | | | |];
    try (exists w; split; reflexivity).
  - exists w. split; [|reflexivity].
    apply Generate_literal_string. exact Hp.
  - rewrite Generate_S.
    destruct (next_order w) as [k w1] eqn:Hno.
    destruct (range_loop_identity (Generate fuel g) g i (range_entries k m) ∅ w1)
      as (w' & Hloop & Hw').
    + intros key val Hin. apply range_entries_lookup in Hin.
      destruct (plain_VMap_lookup _ _ _ _ Hp Hin) as [Hkey Hval].
      pose proof (depth_VMap_lookup _ _ _ Hin) as Hlt.
      destruct fuel as [|fuel']; [simpl in Hd; lia|].
      split; [|split].
      * unfold literal_string in Hkey. apply andb_prop in Hkey as [Hk1 Hk2].
        apply negb_true_iff in Hk1, Hk2. unfold directive_key.
        rewrite (TrimPrefix_no_prefix _ _ Hk1). exact Hk2.
      * intros w0. apply Generate_literal_string. exact Hkey.
      * intros w0. apply IH; [exact Hval|lia].
    + exists w'. split.
      * rewrite Hloop, foldl_insert_range_entries. reflexivity.
      * rewrite Hw'. change w1 with (snd (k, w1)). rewrite <- Hno.
        apply next_order_rand_draws.
Qed.

(** ** Fuel

    Fuel only bounds the recursion: a call that finishes with some fuel has
    the same outcome with any larger amount. *)

Create HintDb refines.

Lemma refines_refl {A : Type} (c : M A) : refines c c.
Proof. intros w _. reflexivity. Qed.

Lemma refines_bind {A B : Type} (c1 c2 : M A) (k1 k2 : A -> M B) :
  refines c1 c2 ->
  (forall a, refines (k1 a) (k2 a)) ->
  refines (bind c1 k1) (bind c2 k2).
Proof.
  intros Hc Hk w. unfold bind. intros H.
  rewrite (Hc w) by (intros E; rewrite E in H; congruence).
  destruct (c1 w) as [a w1| | |]; try reflexivity.
  apply Hk. exact H.
Qed.

Lemma refines_wrap_err {A : Type} f (c1 c2 : M A) :
  refines c1 c2 -> refines (wrap_err f c1) (wrap_err f c2).
Proof.
  intros Hc w. unfold wrap_err. intros H.
  rewrite (Hc w) by (intros E; rewrite E in H; simpl in H; congruence).
  reflexivity.
Qed.

#[local] Hint Resolve refines_refl refines_bind refines_wrap_err : refines.

Section Monotone.

Variables gen1 gen2 : Z -> value -> M value.
Hypothesis gen_refines : forall i t, refines (gen1 i t) (gen2 i t).
Variable g : Generator.

Lemma refines_str_loop i l acc :
  refines (str_loop gen1 i l acc) (str_loop gen2 i l acc).
Proof.
  revert acc. induction l as [|x l IH]; intros acc; simpl;
    auto with refines.
Qed.

Lemma refines_arr_loop i val n :
  refines (arr_loop gen1 i val n) (arr_loop gen2 i val n).
Proof.
  induction n as [|n IH]; simpl; auto 6 with refines.
Qed.

Lemma refines_case_str params i :
  refines (case_str gen1 params i) (case_str gen2 params i).
Proof.
  destruct params; simpl; auto using refines_str_loop with refines.
Qed.

Lemma refines_case_arr params i :
  refines (case_arr gen1 params i) (case_arr gen2 params i).
Proof.
  destruct params; simpl; auto with refines.
  apply refines_bind; [auto with refines|].
  intros resolvedLen. destruct (convertToInt resolvedLen) as [n [|]]; simpl;
    auto with refines.
  destruct (m !! "val"); auto with refines.
  destruct (n <? 0); auto using refines_arr_loop with refines.
Qed.

Lemma refines_case_obj params i :
  refines (case_obj gen1 params i) (case_obj gen2 params i).
Proof.
  destruct params; simpl; auto with refines.
  destruct (0 <? Z.of_nat (length l)); auto with refines.
  apply refines_bind; [auto with refines|].
  intros r. destruct (l !! Z.to_nat r) as [[]|]; auto with refines.
Qed.

Lemma refines_case_oneof params i :
  refines (case_oneof gen1 params i) (case_oneof gen2 params i).
Proof.
  destruct params; simpl; auto with refines.
  apply refines_bind; [auto with refines|].
  intros r. destruct (l !! Z.to_nat r); auto with refines.
Qed.

Lemma refines_case_option params i :
  refines (case_option gen1 params i) (case_option gen2 params i).
Proof. destruct params; simpl; auto with refines. Qed.

Lemma refines_case_default p variable i :
  refines (case_default gen1 g p variable i) (case_default gen2 g p variable i).
Proof.
  unfold case_default. destruct (HasPrefix variable p); auto with refines.
  destruct (vars g !! TrimPrefix variable p); auto with refines.
Qed.

Lemma refines_resolveVar_with p variable params i :
  refines (resolveVar_with gen1 g p variable params i)
          (resolveVar_with gen2 g p variable params i).
Proof.
  unfold resolveVar_with.
  repeat
    match goal with
    | |- context [String.eqb ?a ?b] => destruct (String.eqb a b)
    end;
    auto using refines_case_str, refines_case_arr, refines_case_obj,
      refines_case_oneof, refines_case_option, refines_case_default
      with refines.
Qed.

Lemma refines_range_loop i ents acc :
  refines (range_loop gen1 g i ents acc) (range_loop gen2 g i ents acc).
Proof.
  revert acc. induction ents as [|[key val] rest IH]; intros acc; simpl;
    auto with refines.
  destruct (isPredefinedVar (TrimPrefix key (prefix g)));
    auto using refines_resolveVar_with with refines.
  apply refines_bind; [auto with refines|]. intros resolvedKey.
  apply refines_bind; [auto with refines|]. intros resolvedVal.
  destruct resolvedKey; auto with refines.
Qed.

End Monotone.

Lemma Generate_fuel_step fuel g i template :
  refines (Generate fuel g i template) (Generate (S fuel) g i template).
Proof.
  revert i template. induction fuel as [|fuel IH]; intros i template.
  - intros w H. exfalso. apply H. reflexivity.
  - rewrite (Generate_S (S fuel)), (Generate_S fuel).
    destruct template; auto with refines.
    + apply refines_wrap_err, refines_resolveVar_with. exact IH.
    + intros w. destruct (next_order w) as [k w1].
      apply refines_range_loop. exact IH.
Qed.

Lemma Generate_fuel_mono fuel fuel' g i template w :
  (fuel <= fuel')%nat ->
  Generate fuel g i template w <> Timeout ->
  Generate fuel' g i template w = Generate fuel g i template w.
Proof.
  induction 1 as [|fuel' _ IH]; intros H; [reflexivity|].
  rewrite <- (IH H). apply Generate_fuel_step. rewrite (IH H). exact H.
Qed.

(** ** The directives without parameters *)

Lemma Generate_string fuel g i t w :
  Generate (S fuel) g i (VString t) w
  = map_err (ErrResolveVariable t) (resolveVar fuel g (prefix g) t VNil i w).
Proof. reflexivity. Qed.

Lemma draw_mod_range (w : world) (n : Z) :
  0 < n -> 0 <= fst (draw w) mod n < n.
Proof. intros Hn. apply Z.mod_pos_bound. exact Hn. Qed.

Ltac switch_on H :=
  unfold resolveVar, resolveVar_with; rewrite H; cbn [String.eqb Ascii.eqb
    Bool.eqb];
  unfold bind, ret, rand_IntN, rand_UintN, rand_Uint32, rand_Int32,
    rand_Int64.

(** X1: [u8], [u16], [u32], [i8] and [i16] return a value of their Go type
    that lies in the range of that type, and use exactly one random draw. *)
Theorem X1_sized_directives_in_range fuel g p variable params i w :
  (TrimPrefix variable p = "u8" ->
     exists r, resolveVar fuel g p variable params i w
               = Ok (VUint8 r) (snd (draw w)) /\ 0 <= r < 2 ^ 8)
  /\ (TrimPrefix variable p = "u16" ->
     exists r, resolveVar fuel g p variable params i w
               = Ok (VUint16 r) (snd (draw w)) /\ 0 <= r < 2 ^ 16)
  /\ (TrimPrefix variable p = "u32" ->
     exists r, resolveVar fuel g p variable params i w
               = Ok (VUint32 r) (snd (draw w)) /\ 0 <= r < 2 ^ 32)
  /\ (TrimPrefix variable p = "i8" ->
     exists r, resolveVar fuel g p variable params i w
               = Ok (VInt8 r) (snd (draw w)) /\ - 2 ^ 7 <= r < 2 ^ 7)
  /\ (TrimPrefix variable p = "i16" ->
     exists r, resolveVar fuel g p variable params i w
               = Ok (VInt16 r) (snd (draw w)) /\ - 2 ^ 15 <= r < 2 ^ 15).
Proof.
  repeat split; intros H; switch_on H; simpl;
    destruct (draw w) as [d w1] eqn:Hd; simpl;
    eexists; (split; [reflexivity|]).
  - apply Z.mod_pos_bound; lia.
  - apply Z.mod_pos_bound; lia.
  - apply Z.mod_pos_bound; lia.
  - pose proof (Z.mod_pos_bound d 256 ltac:(lia)). lia.
  - pose proof (Z.mod_pos_bound d 65536 ltac:(lia)). lia.
Qed.

(** X2: [i32] and [i64] never return a negative number: the code draws them
    with [rand.Int32] and [rand.Int64], which give 31 and 63 random bits. *)
Theorem X2_i32_i64_never_negative fuel g p variable params i w :
  (TrimPrefix variable p = "i32" ->
     exists r, resolveVar fuel g p variable params i w
               = Ok (VInt32 r) (snd (draw w)) /\ 0 <= r < 2 ^ 31)
  /\ (TrimPrefix variable p = "i64" ->
     exists r, resolveVar fuel g p variable params i w
               = Ok (VInt64 r) (snd (draw w)) /\ 0 <= r < 2 ^ 63).
Proof.
  split; intros H; switch_on H; simpl;
    destruct (draw w) as [d w1] eqn:Hd; simpl;
    eexists; (split; [reflexivity|]); apply Z.mod_pos_bound; lia.
Qed.

(** X3: a directive without parameters ([i], [u8], ..., [alpha]) always
    returns a value (no error, no panic, whatever the fuel), and that value
    depends neither on the parameters it is given, nor on the variable
    store, nor on the fuel. *)
Theorem X3_parameterless_directives_always_succeed
    fuel fuel' g g' p variable params params' i w :
  In (TrimPrefix variable p) parameterless ->
  (exists v w', resolveVar fuel g p variable params i w = Ok v w')
  /\ resolveVar fuel g p variable params i w
     = resolveVar fuel' g' p variable params' i w.
Proof.
  unfold parameterless. simpl. intros H.
  repeat (destruct H as [H|H]; [symmetry in H|]); try contradiction;
    unfold resolveVar, resolveVar_with; rewrite H;
    cbn [String.eqb Ascii.eqb Bool.eqb];
    unfold case_alpha, bind, ret, rand_IntN, rand_UintN, rand_Uint32,
      rand_Int32, rand_Int64; simpl;
    (split; [|reflexivity]);
    try (destruct (draw w) as [d w1]; simpl);
    try (destruct (d mod 2 =? 0); destruct (draw w1) as [d2 w2]; simpl);
    eexists; eexists; reflexivity.
Qed.

#[local] Arguments letter : simpl never.

Lemma letter_code (c r : Z) :
  0 <= c -> 0 <= r -> c + r < 256 ->
  exists a, letter c r = String a EmptyString
            /\ Z.of_N (N_of_ascii a) = c + r.
Proof.
  intros Hc Hr Hlt. unfold letter. eexists. split; [reflexivity|].
  rewrite N_ascii_embedding by lia. lia.
Qed.

(** X4: [digit] returns an int between 0 and 9, [bool] a boolean, and
    [alpha] a string of exactly one character, a lower-case ASCII letter
    (codes 97 to 122) when the first draw is even and an upper-case one
    (codes 65 to 90) otherwise; [alpha] uses two draws, the others one. *)
Theorem X4_digit_bool_alpha fuel g p variable params i w :
  (TrimPrefix variable p = "digit" ->
     exists r, resolveVar fuel g p variable params i w
               = Ok (VInt r) (snd (draw w)) /\ 0 <= r <= 9)
  /\ (TrimPrefix variable p = "bool" ->
     exists b, resolveVar fuel g p variable params i w
               = Ok (VBool b) (snd (draw w)))
  /\ (TrimPrefix variable p = "alpha" ->
     exists a, resolveVar fuel g p variable params i w
               = Ok (VString (String a EmptyString))
                   (snd (draw (snd (draw w))))
       /\ let code := Z.of_N (N_of_ascii a) in
          if fst (draw w) mod 2 =? 0 then 97 <= code <= 122
          else 65 <= code <= 90).
Proof.
  repeat split; intros H; switch_on H; unfold case_alpha, bind, ret, rand_IntN;
    simpl; destruct (draw w) as [d w1] eqn:Hd; simpl.
  - eexists. split; [reflexivity|].
    pose proof (Z.mod_pos_bound d 10 ltac:(lia)). lia.
  - eexists. reflexivity.
  - destruct (draw w1) as [d2 w2] eqn:Hd2. simpl.
    pose proof (Z.mod_pos_bound d2 26 ltac:(lia)) as Hr.
    destruct (d mod 2 =? 0).
    + destruct (letter_code 97 (d2 mod 26)) as (a & Ha & Hcode); try lia.
      exists a. rewrite Hd2, Ha. split; [reflexivity|]. simpl. lia.
    + destruct (letter_code 65 (d2 mod 26)) as (a & Ha & Hcode); try lia.
      exists a. rewrite Hd2, Ha. split; [reflexivity|]. simpl. lia.
Qed.

(** ** Malformed parameters *)

(** X5: parameters of the wrong shape give the error of the directive, for
    every world and fuel: [int] and [arr] want an object, [obj] and [oneof]
    an array, [option] anything but nil.  Nothing is drawn and nothing is
    resolved before the error. *)
Theorem X5_malformed_parameters fuel g p variable params i w :
  (TrimPrefix variable p = "int" -> (forall m, params <> VMap m) ->
     resolveVar fuel g p variable params i w = Err ErrIntRequires)
  /\ (TrimPrefix variable p = "arr" -> (forall m, params <> VMap m) ->
     resolveVar fuel g p variable params i w = Err ErrArrRequires)
  /\ (TrimPrefix variable p = "obj" -> (forall l, params <> VArr l) ->
     resolveVar fuel g p variable params i w = Err ErrObjRequires)
  /\ (TrimPrefix variable p = "oneof" -> (forall l, params <> VArr l) ->
     resolveVar fuel g p variable params i w = Err ErrOneofRequires)
  /\ (TrimPrefix variable p = "option" -> params = VNil ->
     resolveVar fuel g p variable params i w = Err ErrOptionRequires).
Proof.
  repeat split; intros H Hshape; unfold resolveVar, resolveVar_with;
    rewrite H; cbn [String.eqb Ascii.eqb Bool.eqb];
    try (subst params; reflexivity);
    destruct params; try reflexivity;
    exfalso; eapply Hshape; reflexivity.
Qed.

(** X6: a bare string that names a directive with parameters never
    resolves: ["$int"], ["$arr"], ["$obj"], ["$oneof"], ["$option"] and
    ["$str"] as string values are errors that name the string, whatever the
    variable store holds (a user variable of that name is never looked
    up). *)
Theorem X6_bare_parameterised_directive_fails fuel g i t w :
  let name := TrimPrefix t (prefix g) in
  let run := Generate (S (S fuel)) g i (VString t) w in
  (name = "int" -> run = Err (ErrResolveVariable t ErrIntRequires))
  /\ (name = "arr" -> run = Err (ErrResolveVariable t ErrArrRequires))
  /\ (name = "obj" -> run = Err (ErrResolveVariable t ErrObjRequires))
  /\ (name = "oneof" -> run = Err (ErrResolveVariable t ErrOneofRequires))
  /\ (name = "option" -> run = Err (ErrResolveVariable t ErrOptionRequires))
  /\ (name = "str" ->
      run = Err (ErrResolveVariable t (ErrExpectedSlice VNil))).
Proof.
  intros name run. unfold run. rewrite Generate_string.
  unfold name, resolveVar, resolveVar_with.
  repeat split; intros H; rewrite H; reflexivity.
Qed.

(** ** User variables *)

Lemma Generate_user_variable fuel g i t v w :
  HasPrefix t (prefix g) = true ->
  isPredefinedVar (TrimPrefix t (prefix g)) = false ->
  vars g !! TrimPrefix t (prefix g) = Some v ->
  Generate (S fuel) g i (VString t) w
  = map_err (ErrResolveVariable t)
      (map_err (ErrResolveVariable t) (Generate fuel g i v w)).
Proof.
  intros Hp Hd Hv. rewrite Generate_string. unfold resolveVar.
  rewrite (resolveVar_with_default _ _ _ _ _ _ Hd).
  unfold case_default, wrap_err. rewrite Hp, Hv. reflexivity.
Qed.

Lemma Generate_unchanged fuel g i template w :
  array_number_boolean_null template = true ->
  Generate (S fuel) g i template w = Ok template w.
Proof.
  rewrite Generate_S.
  destruct template; simpl; intros H; try discriminate H; reflexivity.
Qed.

(** X7: a prefixed string whose stripped name is not a directive and is a
    stored variable resolves to whatever resolving the stored value gives:
    the stored value is itself treated as a template.  An error of that
    resolution comes back wrapped twice with the name of the reference. *)
Theorem X7_user_variable_is_resolved fuel g i t v w :
  HasPrefix t (prefix g) = true ->
  isPredefinedVar (TrimPrefix t (prefix g)) = false ->
  vars g !! TrimPrefix t (prefix g) = Some v ->
  (forall x w',
     Generate (S fuel) g i (VString t) w = Ok x w'
     <-> Generate fuel g i v w = Ok x w')
  /\ (forall e,
        Generate fuel g i v w = Err e ->
        Generate (S fuel) g i (VString t) w
        = Err (ErrResolveVariable t (ErrResolveVariable t e)))
  /\ (forall pn,
        Generate fuel g i v w = Panic pn ->
        Generate (S fuel) g i (VString t) w = Panic pn).
Proof.
  intros Hp Hd Hv. rewrite (Generate_user_variable _ _ _ _ _ _ Hp Hd Hv).
  split; [|split].
  - intros x w'. rewrite !map_err_Ok. reflexivity.
  - intros e ->. reflexivity.
  - intros pn ->. reflexivity.
Qed.

(** X8: there is no cycle detection.  If every string of a set refers to a
    variable whose value is again a string of the set (a variable that
    refers to itself, or a longer cycle), then resolving any of them never
    returns: whatever the fuel, the call is still running when the fuel is
    spent. *)
Theorem X8_cyclic_variables_never_return
    (cycle : string -> Prop) fuel g i t w :
  (forall s, cycle s -> exists s', cycle s' /\ refers g s s') ->
  cycle t ->
  Generate fuel g i (VString t) w = Timeout.
Proof.
  intros Hcycle. revert t. induction fuel as [|fuel IH]; intros t Ht;
    [reflexivity|].
  destruct (Hcycle t Ht) as (t' & Ht' & Hp & Hd & Hv).
  rewrite (Generate_user_variable _ _ _ _ _ _ Hp Hd Hv).
  rewrite (IH t' Ht'). reflexivity.
Qed.

(** X9: an object key must resolve to a string.  When the key of a
    one-entry object is a reference to a variable that holds an array, a
    number, a boolean or null, and the value of the entry resolves, the call
    fails with "keys must resolve to strings". *)
Theorem X9_key_must_resolve_to_string fuel g i key val v w rv w' :
  HasPrefix key (prefix g) = true ->
  isPredefinedVar (TrimPrefix key (prefix g)) = false ->
  vars g !! TrimPrefix key (prefix g) = Some v ->
  array_number_boolean_null v = true ->
  Generate (S (S fuel)) g i val (snd (next_order w)) = Ok rv w' ->
  Generate (S (S (S fuel))) g i (VMap {[ key := val ]}) w
  = Err ErrKeysMustBeStrings.
Proof.
  intros Hp Hd Hv Hlit Hval. rewrite Generate_S.
  destruct (next_order w) as [k w1]. rewrite range_entries_singleton.
  simpl in Hval. simpl. rewrite Hd. unfold bind, wrap_err.
  rewrite (Generate_user_variable _ _ _ _ _ _ Hp Hd Hv).
  rewrite (Generate_unchanged _ _ _ _ _ Hlit). simpl.
  rewrite Hval. simpl.
  destruct v; try discriminate Hlit; reflexivity.
Qed.

(** ** The [str] directive *)

Lemma append_empty_r (s : string) : (s ++ "")%string = s.
Proof.
  induction s as [|a s IH]; [reflexivity|].
  change (String a (s ++ "")%string = String a s). f_equal. exact IH.
Qed.

Lemma append_assoc (s1 s2 s3 : string) :
  ((s1 ++ s2) ++ s3)%string = (s1 ++ (s2 ++ s3))%string.
Proof.
  induction s1 as [|a s1 IH]; [reflexivity|].
  change (String a ((s1 ++ s2) ++ s3)%string
          = String a (s1 ++ (s2 ++ s3))%string).
  f_equal. exact IH.
Qed.

Lemma concat_empty_cons (x : string) (xs : list string) :
  String.concat "" (x :: xs) = (x ++ String.concat "" xs)%string.
Proof.
  destruct xs as [|y ys]; simpl; [rewrite append_empty_r|]; reflexivity.
Qed.

Lemma str_loop_resolved gen i l acc w v w' :
  str_loop gen i l acc w = Ok v w'
  <-> exists rs,
        resolved_list (gen i) l w rs w'
        /\ v = VString (acc ++ String.concat "" (map Sprint rs)).
Proof.
  revert acc w. induction l as [|elem rest IH]; intros acc w; simpl.
  - unfold ret. split.
    + intros [= <- <-]. exists []. split; [constructor|].
      simpl. rewrite append_empty_r. reflexivity.
    + intros (rs & Hr & ->). inversion Hr; subst. simpl.
      rewrite append_empty_r. reflexivity.
  - unfold bind. split.
    + destruct (gen i elem w) as [r w1| | |] eqn:He; try discriminate.
      intros Hloop. apply IH in Hloop as (rs & Hr & ->).
      exists (r :: rs). split; [econstructor; eassumption|].
      rewrite map_cons, concat_empty_cons, append_assoc. reflexivity.
    + intros (rs & Hr & ->).
      inversion Hr as [|? ? ? r w1 rs' ? He Hrest]; subst.
      rewrite He. apply IH. exists rs'. split; [exact Hrest|].
      rewrite map_cons, concat_empty_cons, append_assoc. reflexivity.
Qed.

(** X10: [str] on an array returns a value exactly when the elements
    resolve one after the other, and the value is then the string made of
    the printed forms of the resolved elements, in the order of the array. *)
Theorem X10_str_concatenates_resolved_elements
    fuel g p variable l i w v w' :
  TrimPrefix variable p = "str" ->
  resolveVar fuel g p variable (VArr l) i w = Ok v w'
  <-> exists rs,
        resolved_list (Generate fuel g i) l w rs w'
        /\ v = VString (String.concat "" (map Sprint rs)).
Proof.
  intros H. unfold resolveVar, resolveVar_with. rewrite H.
  cbn [String.eqb Ascii.eqb Bool.eqb]. unfold case_str.
  rewrite str_loop_resolved. reflexivity.
Qed.

(** X11: [str] on parameters that are not an array resolves them first, and
    accepts the result only if it is an array: it then prints and joins the
    elements of that array as they are; any other result (a string, a
    number, an object, nil) is the error "expected slice". *)
Theorem X11_str_expects_a_slice fuel g p variable params i w r w1 :
  TrimPrefix variable p = "str" ->
  (forall l, params <> VArr l) ->
  Generate fuel g i params w = Ok r w1 ->
  resolveVar fuel g p variable params i w
  = match r with
    | VArr l => Ok (VString (String.concat "" (map Sprint l))) w1
    | _ => Err (ErrExpectedSlice r)
    end.
Proof.
  intros H Hshape Hr. unfold resolveVar, resolveVar_with. rewrite H.
  cbn [String.eqb Ascii.eqb Bool.eqb]. unfold case_str, bind.
  destruct params; try (exfalso; eapply Hshape; reflexivity);
    rewrite Hr; destruct r; reflexivity.
Qed.

(** ** Lengths given by a directive *)

Lemma sized_directive_returns_sized_integer fuel g p variable params i w :
  In (TrimPrefix variable p) sized_integer_names ->
  exists v w', resolveVar fuel g p variable params i w = Ok v w'
               /\ sized_integer v = true.
Proof.
  unfold sized_integer_names. simpl. intros H.
  repeat (destruct H as [H|H]; [symmetry in H|]); try contradiction;
    switch_on H; simpl; destruct (draw w) as [d w1]; simpl;
    eexists; eexists; (split; [reflexivity|reflexivity]).
Qed.

(** X12: [arr] does not accept a length produced by [u8], [u16], [u32],
    [i8], [i16], [i32] or [i64]: these return sized integers, which
    [convertToInt] rejects, so the call fails with "invalid len value" in
    every world, whatever [val] is. *)
Theorem X12_arr_rejects_sized_integer_length
    fuel g p variable paramsMap s i w :
  TrimPrefix variable p = "arr" ->
  paramsMap !! "len" = Some (VString s) ->
  In (TrimPrefix s (prefix g)) sized_integer_names ->
  resolveVar (S fuel) g p variable (VMap paramsMap) i w
  = Err ErrArrInvalidLen.
Proof.
  intros H Hlen Hs. unfold resolveVar.
  rewrite (resolveVar_with_arr _ _ _ _ _ _ H).
  destruct (sized_directive_returns_sized_integer fuel g (prefix g) s VNil i w Hs)
    as (v & w1 & Hv & Hsized).
  rewrite (case_arr_after_len _ _ _ _ v w1).
  - destruct v; try discriminate Hsized; reflexivity.
  - unfold index_or_nil. rewrite Hlen. simpl.
    rewrite Generate_string, Hv. reflexivity.
Qed.

Lemma arr_loop_unchanged gen i val n w :
  (forall w0, gen i val w0 = Ok val w0) ->
  arr_loop gen i val n w = Ok (replicate n val) w.
Proof.
  intros Hval. induction n as [|n IH]; simpl; [reflexivity|].
  unfold bind. rewrite Hval, IH. reflexivity.
Qed.

(** X13: a length given as the bare directive [i] is the iteration index:
    with an array, a number, a boolean or null as [val], the call at
    iteration i >= 0 returns exactly i copies of [val], and uses no random
    draw; at a negative index it panics in [make]. *)
Theorem X13_arr_of_length_i fuel g p variable paramsMap s val i w :
  TrimPrefix variable p = "arr" ->
  paramsMap !! "len" = Some (VString s) ->
  TrimPrefix s (prefix g) = "i" ->
  paramsMap !! "val" = Some val ->
  array_number_boolean_null val = true ->
  resolveVar (S fuel) g p variable (VMap paramsMap) i w
  = if i <? 0 then Panic PanicMakeslice
    else Ok (VArr (replicate (Z.to_nat i) val)) w.
Proof.
  intros H Hlen Hs Hval Hlit. unfold resolveVar.
  rewrite (resolveVar_with_arr _ _ _ _ _ _ H).
  rewrite (case_arr_after_len _ _ _ _ (VInt i) w).
  - simpl. rewrite Hval. destruct (i <? 0); [reflexivity|].
    unfold bind.
    rewrite arr_loop_unchanged
      by (intros w0; apply Generate_unchanged; exact Hlit).
    reflexivity.
  - unfold index_or_nil. rewrite Hlen. simpl. rewrite Generate_string.
    unfold resolveVar, resolveVar_with. rewrite Hs. reflexivity.
Qed.

(** ** More on [int] and [oneof] *)

Lemma wrap_int_above (z : Z) :
  int_max < z <= int_max + 2 ^ 64 -> wrap_int z = z - 2 ^ 64.
Proof.
  unfold wrap_int, int_max. intros H.
  replace (z + 2 ^ 63) with ((z + 2 ^ 63 - 2 ^ 64) + 1 * 2 ^ 64) by lia.
  rewrite Z_mod_plus_full, Z.mod_small by lia. lia.
Qed.

(** X14: when the converted bounds lo <= hi fit an int but are so far apart
    that max - min + 1 overflows (hi - lo >= 2^63 - 1), the argument of
    [rand.IntN] wraps around to a value that is not positive, and the call
    panics. *)
Theorem X14_int_wide_bounds_panic fuel g p variable paramsMap i w lo hi :
  TrimPrefix variable p = "int" ->
  convertToInt (index_or_nil paramsMap "min") = (lo, true) ->
  convertToInt (index_or_nil paramsMap "max") = (hi, true) ->
  int_min <= lo -> lo <= hi -> hi <= int_max -> int_max <= hi - lo ->
  resolveVar fuel g p variable (VMap paramsMap) i w = Panic PanicIntN.
Proof.
  intros Hv Hlo Hhi H1 H2 H3 H4. unfold resolveVar.
  rewrite (resolveVar_with_int _ _ _ _ _ _ Hv).
  rewrite (case_int_numeric _ _ _ _ Hlo Hhi).
  assert (Harg : int_add (int_sub hi lo) 1 <= 0).
  { unfold int_add, int_sub.
    destruct (Z.eq_dec (hi - lo) int_max) as [E|E].
    - rewrite (wrap_int_small (hi - lo))
        by (unfold int_min, int_max in *; lia).
      rewrite wrap_int_above by (unfold int_min, int_max in *; lia).
      unfold int_max in *. lia.
    - rewrite (wrap_int_above (hi - lo))
        by (unfold int_min, int_max in *; lia).
      rewrite wrap_int_small by (unfold int_min, int_max in *; lia).
      unfold int_min, int_max in *. lia. }
  unfold bind, rand_IntN.
  destruct (Z.leb_spec (int_add (int_sub hi lo) 1) 0) as [_|Hgt];
    [reflexivity|lia].
Qed.

(** X15: every candidate can be drawn.  For each position of a non-empty
    list there is a draw with which [oneof] resolves the element at that
    position, and for each integer r of [lo, hi] (bounds as in the range
    property of [int]) there is a draw with which [int] returns r. *)
Theorem X15_every_candidate_can_be_drawn fuel g p variable i draws orders :
  (TrimPrefix variable p = "oneof" ->
     forall l idx x, l !! idx = Some x ->
       resolveVar fuel g p variable (VArr l) i
         (mkWorld (Z.of_nat idx :: draws) orders)
       = Generate fuel g i x (mkWorld draws orders))
  /\ (TrimPrefix variable p = "int" ->
      forall paramsMap lo hi r,
        convertToInt (index_or_nil paramsMap "min") = (lo, true) ->
        convertToInt (index_or_nil paramsMap "max") = (hi, true) ->
        int_min <= lo -> hi <= int_max -> hi - lo < int_max ->
        lo <= r <= hi ->
        resolveVar fuel g p variable (VMap paramsMap) i
          (mkWorld ((r - lo) :: draws) orders)
        = Ok (VInt r) (mkWorld draws orders)).
Proof.
  split; intros Hv.
  - intros l idx x Hx. unfold resolveVar.
    rewrite (resolveVar_with_oneof _ _ _ _ _ _ Hv).
    pose proof (lookup_lt_Some _ _ _ Hx) as Hlt.
    unfold case_oneof, bind, rand_IntN.
    destruct (Z.leb_spec (Z.of_nat (length l)) 0) as [Hle|_]; [lia|].
    unfold draw. simpl.
    rewrite Z.mod_small by lia. rewrite Nat2Z.id, Hx. reflexivity.
  - intros paramsMap lo hi r Hlo Hhi H1 H2 H3 Hr. unfold resolveVar.
    rewrite (resolveVar_with_int _ _ _ _ _ _ Hv).
    rewrite (case_int_numeric _ _ _ _ Hlo Hhi).
    unfold int_add, int_sub.
    rewrite (wrap_int_small (hi - lo))
      by (unfold int_min, int_max in *; lia).
    rewrite (wrap_int_small (hi - lo + 1))
      by (unfold int_min, int_max in *; lia).
    unfold bind, rand_IntN.
    destruct (Z.leb_spec (hi - lo + 1) 0) as [Hle|_]; [lia|].
    unfold draw. simpl. rewrite Z.mod_small by lia.
    rewrite wrap_int_small by (unfold int_min, int_max in *; lia).
    unfold ret. do 2 f_equal. lia.
Qed.

(** ** [convertToInt] *)

Lemma Qtrunc_bounds (v : Q) :
  ((0 <= v -> inject_Z (Qtrunc v) <= v /\ v < inject_Z (Qtrunc v) + 1)
   /\ (v <= 0 -> inject_Z (Qtrunc v) - 1 < v /\ v <= inject_Z (Qtrunc v)))%Q.
Proof.
  destruct v as [n d]. unfold Qtrunc, Qle, Qlt. simpl.
  pose proof (Z.quot_rem' n (Z.pos d)) as Hqr.
  split; intros Hn.
  - pose proof (Z.rem_bound_pos_pos n (Z.pos d) ltac:(lia) ltac:(lia)).
    split; nia.
  - pose proof (Z.rem_bound_pos_neg n (Z.pos d) ltac:(lia) ltac:(lia)).
    split; nia.
Qed.

(** X16: [convertToInt] turns a float64 into the integer obtained by
    dropping its fraction (rounding toward zero, for negative numbers too)
    whenever that integer fits an int, and gives back z unchanged for the
    float64 that holds an integer z of the int range; an int is returned as
    it is. *)
Theorem X16_convertToInt_truncates_toward_zero :
  (forall v : Q,
     int_min <= Qtrunc v <= int_max ->
     exists r,
       convertToInt (VFloat64 v) = (r, true)
       /\ ((0 <= v -> inject_Z r <= v /\ v < inject_Z r + 1)
           /\ (v <= 0 -> inject_Z r - 1 < v /\ v <= inject_Z r))%Q)
  /\ (forall z : Z,
        int_min <= z <= int_max ->
        convertToInt (VFloat64 (inject_Z z)) = (z, true))
  /\ (forall z : Z, convertToInt (VInt z) = (z, true)).
Proof.
  split; [|split].
  - intros v [H1 H2]. exists (Qtrunc v). split; [|apply Qtrunc_bounds].
    unfold convertToInt, float64_to_int.
    destruct (Z.leb_spec int_min (Qtrunc v)); [|lia].
    destruct (Z.leb_spec (Qtrunc v) int_max); [|lia].
    reflexivity.
  - intros z [H1 H2]. unfold convertToInt, float64_to_int, Qtrunc. simpl.
    rewrite Z.quot_1_r.
    destruct (Z.leb_spec int_min z); [|lia].
    destruct (Z.leb_spec z int_max); [|lia].
    reflexivity.
  - reflexivity.
Qed.

(** ** Objects with literal keys *)

Lemma resolved_pairs_literal_keys gen ents
    (acc : gmap string value) w acc' w' :
  (forall key val, (key, val) ∈ ents ->
     forall w0, gen (VString key) w0 = Ok (VString key) w0) ->
  resolved_pairs gen ents acc w acc' w' ->
  (forall key, is_Some (acc' !! key)
     <-> is_Some (acc !! key) \/ exists val, (key, val) ∈ ents)
  /\ (forall key rv, acc' !! key = Some rv ->
        acc !! key = Some rv
        \/ exists val w1 w2, (key, val) ∈ ents /\ gen val w1 = Ok rv w2).
Proof.
  intros Hlit Hr.
  induction Hr as [acc w|key val rest acc w strKey w1 rv w2 acc' w' Hk Hv Hr IH].
  - split.
    + intros key. split; [auto|]. intros [H|[val H]]; [exact H|inversion H].
    + intros key rv H. left. exact H.
  - rewrite (Hlit key val) in Hk by left. injection Hk as <- <-.
    destruct IH as [IHdom IHval].
    { intros k x Hin. apply (Hlit k x). right. exact Hin. }
    split.
    + intros k. rewrite IHdom. rewrite lookup_insert_is_Some'. split.
      * intros [[->|H]|[x Hx]]; [right; exists val; left|left; exact H|].
        right. exists x. right. exact Hx.
      * intros [H|[x Hx]]; [left; right; exact H|].
        apply elem_of_cons in Hx as [[= -> ->]|Hx]; [left; left; reflexivity|].
        right. exists x. exact Hx.
    + intros k r Hkr. apply IHval in Hkr as [Hkr|(x & wa & wb & Hin & Hx)].
      * apply lookup_insert_Some in Hkr as [[<- <-]|[_ Hkr]];
          [|left; exact Hkr].
        right. exists val, w, w2. split; [left|exact Hv].
      * right. exists x, wa, wb. split; [right; exact Hin|exact Hx].
Qed.

(** X17: an object whose keys are all literal strings (no prefix, not a
    directive name) keeps exactly its keys: when [Generate] returns a value
    for it, the value is an object with the same set of keys, and the value
    stored under a key is a result of resolving the template's value under
    that key. *)
Theorem X17_literal_keys_are_kept fuel g i (m : gmap string value) w v w' :
  (forall key, is_Some (m !! key) -> literal_string (prefix g) key = true) ->
  Generate (S (S fuel)) g i (VMap m) w = Ok v w' ->
  exists acc : gmap string value,
    v = VMap acc
    /\ (forall key, is_Some (acc !! key) <-> is_Some (m !! key))
    /\ (forall key rv, acc !! key = Some rv ->
          exists val w1 w2,
            m !! key = Some val
            /\ Generate (S fuel) g i val w1 = Ok rv w2).
Proof.
  intros Hlit. rewrite Generate_S.
  destruct (next_order w) as [k w1]. intros Hloop.
  assert (Hent : forall key val,
            (key, val) ∈ range_entries k m -> m !! key = Some val)
    by (intros key val; apply range_entries_lookup).
  apply range_loop_plain in Hloop as (acc & -> & Hr).
  - exists acc. split; [reflexivity|].
    destruct (resolved_pairs_literal_keys _ _ _ _ _ _
                (fun key val Hin w0 =>
                   Generate_literal_string fuel g i key w0
                     (Hlit key (ex_intro _ val (Hent key val Hin)))) Hr)
      as [Hdom Hval].
    split.
    + intros key. rewrite Hdom, lookup_empty. split.
      * intros [[x Hx]|[val Hin]]; [discriminate|].
        exists val. apply Hent. exact Hin.
      * intros [val Hm]. right. exists val.
        apply range_entries_lookup. exact Hm.
    + intros key rv Hkr. apply Hval in Hkr as [Hkr|(val & wa & wb & Hin & Hx)].
      * rewrite lookup_empty in Hkr. discriminate.
      * exists val, wa, wb. split; [apply Hent; exact Hin|exact Hx].
  - apply Forall_forall. intros [key val] Hin. simpl.
    specialize (Hlit key (ex_intro _ val (Hent key val Hin))).
    unfold literal_string in Hlit. apply andb_prop in Hlit as [H1 H2].
    apply negb_true_iff in H1, H2. unfold directive_key.
    rewrite (TrimPrefix_no_prefix _ _ H1). exact H2.
Qed.

(** ** The context of an error *)




End Engine.

(** ** The properties at concrete inputs *)

Lemma C8_witness :
  array_number_boolean_null (VArr [VString "$i"]) = true
  /\ Generate Sprint_unused 1 dollar_generator 4 (VArr [VString "$i"]) zero_world
     = Ok (VArr [VString "$i"]) zero_world.
Proof.
  split; [reflexivity|].
  apply (C8_array_number_boolean_null_unchanged Sprint_unused 0).
  reflexivity.
Defined.

Lemma C2_witness :
  Generate Sprint_unused 1 dollar_generator 0 (VString "hello") zero_world
  = Ok (VString "hello") zero_world
  /\ Generate Sprint_unused 1 dollar_generator 0 (VString "$nope") zero_world
     = Err (ErrResolveVariable "$nope" (ErrUndefinedVariable "$nope")).
Proof.
  split.
  - apply (C2_string_literal_or_undefined Sprint_unused 0 dollar_generator 0
             "hello" zero_world); reflexivity.
  - apply (C2_string_literal_or_undefined Sprint_unused 0 dollar_generator 0
             "$nope" zero_world); reflexivity.
Defined.

Lemma C6_witness :
  exists x, x ∈ [number 1; number 2]
    /\ resolveVar Sprint_unused 1 dollar_generator "$" "$oneof"
         (VArr [number 1; number 2]) 0 (mkWorld [3] [])
       = Generate Sprint_unused 1 dollar_generator 0 x
           (snd (draw (mkWorld [3] []))).
Proof.
  apply (C6_oneof_obj_select Sprint_unused 1 dollar_generator "$" "$oneof"
           [number 1; number 2] 0 (mkWorld [3] [])).
  - discriminate.
  - reflexivity.
Defined.

Lemma C10_witness :
  resolveVar Sprint_unused 1 dollar_generator "$" "$oneof" (VArr []) 0 zero_world
  = Panic PanicIntN
  /\ resolveVar Sprint_unused 1 dollar_generator "$" "$obj" (VArr []) 0 zero_world
     = Err ErrObjRequires.
Proof.
  apply (C10_oneof_empty_list_panics Sprint_unused 1 dollar_generator "$"
           "$oneof" "$obj" 0 zero_world); reflexivity.
Defined.

Lemma C3_witness :
  exists r w',
    resolveVar Sprint_unused 0 dollar_generator "$" "$int"
      (object [("min", number 1); ("max", number 6)]) 0 (mkWorld [4] [])
    = Ok (VInt r) w'
    /\ 1 <= r <= 6 /\ (1 = 6 -> r = 1).
Proof.
  apply (proj1 (C3_int_within_converted_bounds Sprint_unused 0
           dollar_generator "$" "$int"
           (list_to_map [("min", number 1); ("max", number 6)]) 0
           (mkWorld [4] []) eq_refl) 1 6);
    try reflexivity; unfold int_min, int_max; lia.
Defined.

Lemma C4_witness :
  5 > 3
  /\ resolveVar Sprint_unused 0 dollar_generator "$" "$int"
       (object [("min", number 5); ("max", number 3)]) 0 zero_world
     = Panic PanicIntN.
Proof.
  split; [lia|].
  apply (C4_int_inverted_bounds_panic Sprint_unused 0 dollar_generator "$"
           "$int" (list_to_map [("min", number 5); ("max", number 3)]) 0
           zero_world 5 3);
    try reflexivity; unfold int_min; lia.
Defined.

Lemma C5_witness :
  resolveVar Sprint_unused 1 dollar_generator "$" "$arr"
    (object [("len", number 2); ("val", VString "$i")]) 7 zero_world
  = Ok (VArr [VInt 7; VInt 7]) zero_world.
Proof.
  pose proof (C5_arr_repeats_val Sprint_unused 0 dollar_generator "$" "$arr"
                (list_to_map [("len", number 2); ("val", VString "$i")]) 7
                zero_world eq_refl) as (_ & _ & H).
  destruct (H (number 2) zero_world eq_refl) as [_ H2].
  destruct (H2 2 eq_refl) as [_ H3].
  destruct (H3 (VString "$i") eq_refl ltac:(lia)) as [_ H4].
  apply H4; [|reflexivity].
  apply (resolutions_cons _ _ zero_world (VInt 7) zero_world); [reflexivity|].
  apply (resolutions_cons _ _ zero_world (VInt 7) zero_world); [reflexivity|].
  apply resolutions_nil.
Defined.

Lemma C7_witness :
  number 1 <> VNil
  /\ resolveVar Sprint_unused 2 dollar_generator "$" "$option" (number 1) 0
       zero_world
     = Ok (number 1) zero_world.
Proof.
  split; [discriminate|].
  pose proof (C7_option_is_oneof_of_singleton Sprint_unused 1 dollar_generator
                "$" "$option" (number 1) 0 zero_world eq_refl eq_refl
                ltac:(discriminate)) as (_ & _ & _ & H).
  apply H. reflexivity.
Defined.

Lemma C1_witness :
  (* a directive key among others *)
  (exists pre post,
     range_entries (fst (next_order zero_world))
       (<[ "$i" := VNil ]> (<[ "a" := number 1 ]> ∅))
     = (pre ++ ("$i", VNil) :: post)%list
     /\ (forall acc w2,
           resolved_pairs (Generate Sprint_unused 1 dollar_generator 7) pre ∅
             (snd (next_order zero_world)) acc w2 ->
           Generate Sprint_unused 2 dollar_generator 7
             (VMap (<[ "$i" := VNil ]> (<[ "a" := number 1 ]> ∅))) zero_world
           = map_err (ErrResolveGenerator "$i")
               (resolveVar Sprint_unused 1 dollar_generator "$" "$i" VNil 7 w2))
     /\ (forall v w',
           Generate Sprint_unused 2 dollar_generator 7
             (VMap (<[ "$i" := VNil ]> (<[ "a" := number 1 ]> ∅))) zero_world
           = Ok v w' ->
           exists acc w2,
             resolved_pairs (Generate Sprint_unused 1 dollar_generator 7) pre ∅
               (snd (next_order zero_world)) acc w2))
  (* a directive key alone *)
  /\ Generate Sprint_unused 2 dollar_generator 7 (VMap {[ "$i" := VNil ]})
       zero_world
     = map_err (ErrResolveGenerator "$i")
         (resolveVar Sprint_unused 1 dollar_generator "$" "$i" VNil 7
            (snd (next_order zero_world)))
  (* no directive key *)
  /\ Generate Sprint_unused 2 dollar_generator 7 (VMap {[ "a" := number 1 ]})
       zero_world
     = Ok (VMap {[ "a" := number 1 ]}) zero_world.
Proof.
  split; [|split].
  - apply (proj1 (C1_object_resolution Sprint_unused 1 dollar_generator 7
             (<[ "$i" := VNil ]> (<[ "a" := number 1 ]> ∅)) zero_world)).
    + reflexivity.
    + reflexivity.
    + intros key' [x Hx] Hd.
      destruct (decide (key' = "$i")) as [->|Hne]; [reflexivity|].
      rewrite lookup_insert_ne in Hx by congruence.
      destruct (decide (key' = "a")) as [->|Hne2];
        [vm_compute in Hd; discriminate|].
      rewrite lookup_insert_ne, lookup_empty in Hx by congruence.
      discriminate.
  - apply (proj1 (proj2 (C1_object_resolution Sprint_unused 1
             dollar_generator 7 {[ "$i" := VNil ]} zero_world)) "$i" VNil);
      reflexivity.
  - apply (proj2 (proj2 (C1_object_resolution Sprint_unused 1
             dollar_generator 7 {[ "a" := number 1 ]} zero_world))).
    + intros key [x Hx].
      destruct (decide (key = "a")) as [->|Hne]; [reflexivity|].
      rewrite lookup_singleton_ne in Hx by congruence. discriminate.
    + exists {[ "a" := number 1 ]}. split; [reflexivity|].
      rewrite range_entries_singleton.
      apply (resolved_cons _ "a" (number 1) [] ∅ _ "a" zero_world (number 1)
               zero_world); [reflexivity|reflexivity|].
      rewrite insert_empty. apply resolved_nil.
Defined.

Lemma C9_witness :
  exists w',
    Generate Sprint_unused 3 dollar_generator 5
      (object [("a", object [("b", VString "x")]); ("c", VArr [VString "$i"])])
      zero_world
    = Ok (object [("a", object [("b", VString "x")]);
                  ("c", VArr [VString "$i"])]) w'
    /\ rand_draws w' = rand_draws zero_world.
Proof.
  apply (C9_plain_template_round_trip Sprint_unused 3 dollar_generator 5).
  - vm_compute. reflexivity.
  - vm_compute. lia.
Defined.

(** ** Where the specification and the code differ *)

(** C1 as stated fails: the object has exactly one directive key, "$i", yet
    when the map iteration visits the other key first, resolving that key
    fails and so does the whole call; with the other order the directive's
    result is returned. *)
Lemma C1_other_key_is_not_ignored :
  let m : gmap string value := list_to_map [("$i", VNil); ("$zz", VNil)] in
  (directive_key dollar_generator "$i" = true
   /\ directive_key dollar_generator "$zz" = false)
  /\ (forall w,
        map_err (ErrResolveGenerator "$i")
          (resolveVar Sprint_unused 2 dollar_generator "$" "$i" VNil 7 w)
        = Ok (VInt 7) w)
  /\ Generate Sprint_unused 3 dollar_generator 7 (VMap m) (mkWorld [] [0%nat])
     = Ok (VInt 7) (mkWorld [] [])
  /\ Generate Sprint_unused 3 dollar_generator 7 (VMap m) (mkWorld [] [1%nat])
     = Err (ErrResolveKey "$zz"
              (ErrResolveVariable "$zz" (ErrUndefinedVariable "$zz"))).
Proof.
  repeat split; vm_compute; reflexivity.
Qed.

(** C3 as stated fails: with min = max = 0.5 the bounds are numeric and
    a <= b, but the result is the int 0, which is neither within
    [0.5, 0.5] nor equal to a. *)
Lemma C3_fractional_bounds_leave_the_range :
  let a := (1 # 2)%Q in
  (a <= a)%Q
  /\ resolveVar Sprint_unused 0 dollar_generator "$" "$int"
       (object [("min", VFloat64 a); ("max", VFloat64 a)]) 0 zero_world
     = Ok (VInt 0) zero_world
  /\ ~ (a <= inject_Z 0)%Q.
Proof.
  split; [apply Qle_refl|]. split; [vm_compute; reflexivity|].
  intros H. unfold Qle in H. simpl in H. lia.
Qed.

(** C5 as stated fails: [len] resolves to 2.5, which is not an integer, and
    the call does not fail: it returns an array of two elements. *)
Lemma C5_fractional_len_is_accepted :
  let len := VFloat64 (5 # 2) in
  Generate Sprint_unused 1 dollar_generator 0 len zero_world = Ok len zero_world
  /\ ~ (exists n : Z, (5 # 2 == inject_Z n)%Q)
  /\ resolveVar Sprint_unused 1 dollar_generator "$" "$arr"
       (object [("len", len); ("val", number 7)]) 0 zero_world
     = Ok (VArr [number 7; number 7]) zero_world.
Proof.
  split; [reflexivity|]. split; [|vm_compute; reflexivity].
  intros [n H]. unfold Qeq in H. simpl in H. lia.
Qed.

(** C9 as stated fails: the template "$name" holds no directive token
    ("name" is not a reserved name) and no array, but it is a reference to a
    user variable and resolves to the stored value, not to itself. *)
Lemma C9_variable_reference_is_resolved :
  let g := mkGenerator "$" {[ "name" := VString "Alice" ]} in
  let template := VString "$name" in
  no_directive_tokens (prefix g) template = true
  /\ no_arrays template = true
  /\ Generate Sprint_unused 2 g 0 template zero_world
     = Ok (VString "Alice") zero_world
  /\ VString "Alice" <> template.
Proof.
  repeat split; try (vm_compute; reflexivity). discriminate.
Qed.

(** ** The scenarios of the specification *)

(** Scenario 1: [{"a": {"$int": {"min": 1, "max": 1}}}] gives [{"a": 1}]. *)
Example scenario_int_one :
  Generate Sprint_unused 3 dollar_generator 0
    (object [("a", object [("$int",
                            object [("min", number 1); ("max", number 1)])])])
    zero_world
  = Ok (VMap {[ "a" := VInt 1 ]}) zero_world.
Proof. vm_compute. reflexivity. Qed.

(** Scenario 2: ["$i"] at iterations 0, 1, 2 gives 0, 1, 2. *)
Example scenario_iteration_index :
  map (fun i => Generate Sprint_unused 2 dollar_generator i (VString "$i")
                  zero_world) [0; 1; 2]
  = [Ok (VInt 0) zero_world; Ok (VInt 1) zero_world; Ok (VInt 2) zero_world].
Proof. reflexivity. Qed.

(** Scenario 3: with the variable [name] holding "Alice",
    [{"greeting": "$name"}] gives [{"greeting": "Alice"}]. *)
Example scenario_user_variable :
  Generate Sprint_unused 3 (mkGenerator "$" {[ "name" := VString "Alice" ]}) 0
    (object [("greeting", VString "$name")]) zero_world
  = Ok (VMap {[ "greeting" := VString "Alice" ]}) zero_world.
Proof. vm_compute. reflexivity. Qed.

(** Scenario 4: [{"list": {"$arr": {"len": 3, "val": {"$oneof": [1,2,3]}}}}]
    gives an array of three elements; with the draws 0, 1, 2 they are 1, 2
    and 3. *)
Example scenario_arr_of_oneof :
  Generate Sprint_unused 5 dollar_generator 0
    (object [("list",
              object [("$arr",
                       object [("len", number 3);
                               ("val", object [("$oneof",
                                  VArr [number 1; number 2; number 3])])])])])
    (mkWorld [0; 1; 2] [])
  = Ok (VMap {[ "list" := VArr [number 1; number 2; number 3] ]}) zero_world.
Proof. vm_compute. reflexivity. Qed.

(** Scenario 5: [{"x": "$undefinedThing"}] fails with an undefined-variable
    error. *)
Example scenario_undefined_variable :
  Generate Sprint_unused 3 dollar_generator 0
    (object [("x", VString "$undefinedThing")]) zero_world
  = Err (ErrResolveVal (VString "$undefinedThing")
           (ErrResolveVariable "$undefinedThing"
              (ErrUndefinedVariable "$undefinedThing"))).
Proof. vm_compute. reflexivity. Qed.

(** A registered name is taken for a directive even without the prefix,
    because [TrimPrefix] leaves an unprefixed string as it is. *)
Example bare_directive_name_is_resolved :
  Generate Sprint_unused 2 dollar_generator 3 (VString "i") zero_world
  = Ok (VInt 3) zero_world
  /\ Generate Sprint_unused 3 dollar_generator 3
       (object [("kind", VString "digit")]) (mkWorld [14] [])
     = Ok (VMap {[ "kind" := VInt 4 ]}) zero_world.
Proof. split; vm_compute; reflexivity. Qed.

(** ** Further properties at concrete inputs *)

Lemma X1_witness :
  exists r,
    resolveVar Sprint_unused 0 dollar_generator "$" "$u8" VNil 0
      (mkWorld [300] [])
    = Ok (VUint8 r) (snd (draw (mkWorld [300] []))) /\ 0 <= r < 2 ^ 8.
Proof.
  apply (proj1 (X1_sized_directives_in_range Sprint_unused 0 dollar_generator
                  "$" "$u8" VNil 0 (mkWorld [300] []))).
  reflexivity.
Defined.

Lemma X2_witness :
  exists r,
    resolveVar Sprint_unused 0 dollar_generator "$" "$i64" VNil 0
      (mkWorld [-5] [])
    = Ok (VInt64 r) (snd (draw (mkWorld [-5] []))) /\ 0 <= r < 2 ^ 63.
Proof.
  apply (proj2 (X2_i32_i64_never_negative Sprint_unused 0 dollar_generator
                  "$" "$i64" VNil 0 (mkWorld [-5] []))).
  reflexivity.
Defined.

Lemma X3_witness :
  (exists v w',
     resolveVar Sprint_unused 0 dollar_generator "$" "$alpha" (number 1) 0
       zero_world = Ok v w')
  /\ resolveVar Sprint_unused 0 dollar_generator "$" "$alpha" (number 1) 0
       zero_world
     = resolveVar Sprint_unused 5 (mkGenerator "$" {[ "alpha" := VNil ]}) "$"
         "$alpha" VNil 0 zero_world.
Proof.
  apply (X3_parameterless_directives_always_succeed Sprint_unused 0 5
           dollar_generator (mkGenerator "$" {[ "alpha" := VNil ]}) "$"
           "$alpha" (number 1) VNil 0 zero_world).
  vm_compute. tauto.
Defined.

Lemma X4_witness :
  exists r,
    resolveVar Sprint_unused 0 dollar_generator "$" "$digit" VNil 0
      (mkWorld [47] [])
    = Ok (VInt r) (snd (draw (mkWorld [47] []))) /\ 0 <= r <= 9.
Proof.
  apply (proj1 (X4_digit_bool_alpha Sprint_unused 0 dollar_generator "$"
                  "$digit" VNil 0 (mkWorld [47] []))).
  reflexivity.
Defined.

Lemma X5_witness :
  resolveVar Sprint_unused 0 dollar_generator "$" "$int" (VArr []) 0 zero_world
  = Err ErrIntRequires.
Proof.
  apply (proj1 (X5_malformed_parameters Sprint_unused 0 dollar_generator "$"
                  "$int" (VArr []) 0 zero_world)).
  - reflexivity.
  - discriminate.
Defined.

Lemma X6_witness :
  Generate Sprint_unused 2 (mkGenerator "$" {[ "int" := number 1 ]}) 0
    (VString "$int") zero_world
  = Err (ErrResolveVariable "$int" ErrIntRequires).
Proof.
  apply (proj1 (X6_bare_parameterised_directive_fails Sprint_unused 0
                  (mkGenerator "$" {[ "int" := number 1 ]}) 0 "$int"
                  zero_world)).
  reflexivity.
Defined.

Lemma X7_witness :
  Generate Sprint_unused 2 (mkGenerator "$" {[ "n" := number 3 ]}) 0
    (VString "$n") zero_world
  = Ok (number 3) zero_world.
Proof.
  apply (proj1 (X7_user_variable_is_resolved Sprint_unused 1
                  (mkGenerator "$" {[ "n" := number 3 ]}) 0 "$n" (number 3)
                  zero_world ltac:(reflexivity) ltac:(reflexivity)
                  ltac:(vm_compute; reflexivity))).
  reflexivity.
Defined.

Lemma X8_witness :
  Generate Sprint_unused 50 (mkGenerator "$" {[ "a" := VString "$a" ]}) 0
    (VString "$a") zero_world
  = Timeout.
Proof.
  apply (X8_cyclic_variables_never_return Sprint_unused
           (fun s => s = "$a") 50
           (mkGenerator "$" {[ "a" := VString "$a" ]}) 0 "$a" zero_world).
  - intros s ->. exists "$a". split; [reflexivity|].
    split; [reflexivity|]. split; reflexivity.
  - reflexivity.
Defined.

Lemma X9_witness :
  Generate Sprint_unused 3 (mkGenerator "$" {[ "k" := number 1 ]}) 0
    (VMap {[ "$k" := number 2 ]}) zero_world
  = Err ErrKeysMustBeStrings.
Proof.
  apply (X9_key_must_resolve_to_string Sprint_unused 0
           (mkGenerator "$" {[ "k" := number 1 ]}) 0 "$k" (number 2)
           (number 1) zero_world (number 2) zero_world);
    reflexivity.
Defined.

Lemma X10_witness :
  resolveVar Sprint_strings 2 (mkGenerator "$" {[ "who" := VString "Bob" ]})
    "$" "$str" (VArr [VString "Hi "; VString "$who"]) 0 zero_world
  = Ok (VString "Hi Bob") zero_world.
Proof.
  apply (X10_str_concatenates_resolved_elements Sprint_strings 2
           (mkGenerator "$" {[ "who" := VString "Bob" ]}) "$" "$str"
           [VString "Hi "; VString "$who"] 0 zero_world
           (VString "Hi Bob") zero_world eq_refl).
  exists [VString "Hi "; VString "Bob"]. split; [|reflexivity].
  apply (resolved_list_cons _ _ _ _ _ zero_world); [reflexivity|].
  apply (resolved_list_cons _ _ _ _ _ zero_world); [reflexivity|].
  apply resolved_list_nil.
Defined.

Lemma X11_witness :
  resolveVar Sprint_strings 1 dollar_generator "$" "$str" (VString "abc") 0
    zero_world
  = Err (ErrExpectedSlice (VString "abc")).
Proof.
  apply (X11_str_expects_a_slice Sprint_strings 1 dollar_generator "$" "$str"
           (VString "abc") 0 zero_world (VString "abc") zero_world).
  - reflexivity.
  - discriminate.
  - reflexivity.
Defined.

Lemma X12_witness :
  resolveVar Sprint_unused 1 dollar_generator "$" "$arr"
    (object [("len", VString "$u8"); ("val", number 1)]) 0 (mkWorld [3] [])
  = Err ErrArrInvalidLen.
Proof.
  apply (X12_arr_rejects_sized_integer_length Sprint_unused 0 dollar_generator
           "$" "$arr" (list_to_map [("len", VString "$u8"); ("val", number 1)])
           "$u8" 0 (mkWorld [3] [])).
  - reflexivity.
  - reflexivity.
  - vm_compute. tauto.
Defined.

Lemma X13_witness :
  resolveVar Sprint_unused 1 dollar_generator "$" "$arr"
    (object [("len", VString "$i"); ("val", number 7)]) 2 zero_world
  = Ok (VArr [number 7; number 7]) zero_world.
Proof.
  apply (X13_arr_of_length_i Sprint_unused 0 dollar_generator "$" "$arr"
           (list_to_map [("len", VString "$i"); ("val", number 7)])
           "$i" (number 7) 2 zero_world); reflexivity.
Defined.

Lemma X14_witness :
  resolveVar Sprint_unused 0 dollar_generator "$" "$int"
    (object [("min", number (-9000000000000000000));
             ("max", number 9000000000000000000)]) 0 zero_world
  = Panic PanicIntN.
Proof.
  apply (X14_int_wide_bounds_panic Sprint_unused 0 dollar_generator "$" "$int"
           (list_to_map [("min", number (-9000000000000000000));
                         ("max", number 9000000000000000000)]) 0 zero_world
           (-9000000000000000000) 9000000000000000000);
    try reflexivity; unfold int_min, int_max; lia.
Defined.

Lemma X15_witness :
  resolveVar Sprint_unused 1 dollar_generator "$" "$oneof"
    (VArr [number 1; number 2; number 3]) 0 (mkWorld [2] [])
  = Generate Sprint_unused 1 dollar_generator 0 (number 3) zero_world.
Proof.
  apply (proj1 (X15_every_candidate_can_be_drawn Sprint_unused 1
                  dollar_generator "$" "$oneof" 0 [] [])
           eq_refl [number 1; number 2; number 3] 2%nat (number 3)).
  reflexivity.
Defined.

Lemma X16_witness :
  exists r,
    convertToInt (VFloat64 (-5 # 2)) = (r, true)
    /\ ((0 <= -5 # 2 -> inject_Z r <= -5 # 2 /\ -5 # 2 < inject_Z r + 1)
        /\ (-5 # 2 <= 0 -> inject_Z r - 1 < -5 # 2 /\ -5 # 2 <= inject_Z r))%Q.
Proof.
  apply (proj1 X16_convertToInt_truncates_toward_zero (-5 # 2)%Q).
  vm_compute. split; discriminate.
Defined.

Lemma X17_witness :
  exists acc : gmap string value,
    VMap {[ "a" := VInt 4 ]} = VMap acc
    /\ (forall key, is_Some (acc !! key)
          <-> is_Some (({[ "a" := VString "$i" ]} : gmap string value) !! key))
    /\ (forall key rv, acc !! key = Some rv ->
          exists val w1 w2,
            ({[ "a" := VString "$i" ]} : gmap string value) !! key = Some val
            /\ Generate Sprint_unused 2 dollar_generator 4 val w1 = Ok rv w2).
Proof.
  apply (X17_literal_keys_are_kept Sprint_unused 1 dollar_generator 4
           {[ "a" := VString "$i" ]} zero_world (VMap {[ "a" := VInt 4 ]})
           zero_world).
  - intros key [x Hx].
    destruct (decide (key = "a")) as [->|Hne]; [reflexivity|].
    rewrite lookup_singleton_ne in Hx by congruence. discriminate.
  - vm_compute. reflexivity.
Defined.

